(** * recached: a self-refreshing cache and its process-wide registry

    A model of [cache.go] as a machine of goroutines.  Every goroutine is at a
    program point named after the source line it is about to execute; one
    step of the machine runs one statement of one goroutine, so that every
    interleaving the Go scheduler may choose is an execution of the machine.
    The sequential behaviour of a call is the run of its goroutine alone.

    What the model takes for granted:
    - a producer returns, and acts on the state of the surrounding program
      only (it does not call back into the package); it runs as one step;
    - [sync.RWMutex] is as its documentation has it: a writer that has
      called [Lock] keeps new readers out, waits until the readers that
      were in have left, and then holds the lock; a call of [Lock] or
      [RLock] that cannot go on at once blocks, which is a goroutine that
      has not yet taken the step (a call of [Lock] that finds readers has
      taken it: it waits inside [Lock], at a program point of its own);
    - [select] takes any case that is ready;
    - all caches have the same type parameter [T]. *)

From Stdlib Require Import ZArith String Permutation.
From stdpp Require Import base tactics option list list_numbers.

Set Implicit Arguments.
Set Contextual Implicit.
Set Default Proof Using "Type".

(** ** sync.RWMutex and sync.WaitGroup *)

Record RWMutex := { writer : bool; readers : nat }.

(** The zero value of a mutex is an unlocked mutex. *)
Definition unlocked : RWMutex := {| writer := false; readers := 0 |}.

(** [writer] says that a goroutine has called [Lock] and not yet [Unlock]:
    it holds the lock, or it waits inside [Lock] for the readers that were
    in to leave.  [readers] counts the goroutines between [RLock] and
    [RUnlock].  The writer holds the lock when [writer] is set and
    [readers] is zero.

    [None] is a step that cannot be taken now.  A call of [Lock] blocks
    while another writer is between [Lock] and [Unlock]; otherwise it
    announces the writer, and new readers are kept out from then on: "if
    any goroutine calls Lock while the lock is already held by one or more
    readers, concurrent calls to RLock will block until the writer has
    acquired (and released) the lock".  The writer then goes on when
    [Lock_granted].  [RLock] blocks while a writer holds the lock or waits
    for it.  [Unlock] and [RUnlock] of a mutex that is not held are fatal
    errors of the runtime. *)
Definition Lock (m : RWMutex) : option RWMutex :=
  if writer m then None
  else Some {| writer := true; readers := readers m |}.

Definition Lock_granted (m : RWMutex) : bool :=
  match readers m with O => true | S _ => false end.

(** A writer holds the lock. *)
Definition write_locked (m : RWMutex) : bool := writer m && Lock_granted m.

Definition Unlock (m : RWMutex) : option RWMutex :=
  if writer m then Some {| writer := false; readers := readers m |} else None.

Definition RLock (m : RWMutex) : option RWMutex :=
  if writer m then None
  else Some {| writer := false; readers := S (readers m) |}.

Definition RUnlock (m : RWMutex) : option RWMutex :=
  match readers m with
  | O => None
  | S n => Some {| writer := writer m; readers := n |}
  end.

(** ** Data model *)

Abbreviation ptr := nat (only parsing).       (* *reCached[T]: an address in the heap of caches *)
Abbreviation ctxid := nat (only parsing).     (* the identity of a context.Context *)
Abbreviation wgid := nat (only parsing).      (* the address of a sync.WaitGroup *)
Abbreviation Duration := Z (only parsing).    (* time.Duration, nanoseconds *)
Definition error := option string.   (* [None] is nil *)

Inductive mutex := Registry | Mu (r : ptr).

(** The four call sites of [Update]: who receives control when it returns. *)
Inductive caller :=
| FromNew (c : ctxid)         (* line 34, in New *)
| FromLoop (c : ctxid)        (* line 51, in updateLoop *)
| FromFanOut (wg : wgid)      (* line 86, in a goroutine of GlobalCacheUpdate *)
| FromClient.                 (* a call through the ReCached interface *)

Section Recached.

(** [T] is the type parameter and [zero] its zero value.  [World] is the
    state of the surrounding program that a producer closure reads and
    writes (captured counters and the like). *)
Variables T World : Type.
Variable zero : T.

(** [func() (T, error)], a closure over the world.  A producer is assumed
    to return; it is run as one step. *)
Definition producer := World -> (T * error) * World.

Record reCached := {
  mu : RWMutex;
  value : T;
  period : Duration;
  updateFunc : producer
}.

Definition set_mu (m : RWMutex) (c : reCached) : reCached :=
  {| mu := m; value := value c; period := period c; updateFunc := updateFunc c |}.

Definition set_value (v : T) (c : reCached) : reCached :=
  {| mu := mu c; value := v; period := period c; updateFunc := updateFunc c |}.

(** Everything goroutines share: the caches, the package-level variables
    [globalCachesMutex] and [globalCaches], the wait groups of the running
    fan-outs, the world of the producers, the clock, and the contexts whose
    Done channel is closed. *)
Record shared := {
  heap : list reCached;
  globalCachesMutex : RWMutex;
  globalCaches : list ptr;
  waitGroups : list nat;
  world : World;
  now : Z;
  cancelled : list ctxid
}.

Definition set_heap (h : list reCached) (g : shared) : shared :=
  {| heap := h; globalCachesMutex := globalCachesMutex g;
     globalCaches := globalCaches g; waitGroups := waitGroups g;
     world := world g; now := now g; cancelled := cancelled g |}.

Definition set_globalCachesMutex (m : RWMutex) (g : shared) : shared :=
  {| heap := heap g; globalCachesMutex := m;
     globalCaches := globalCaches g; waitGroups := waitGroups g;
     world := world g; now := now g; cancelled := cancelled g |}.

Definition set_globalCaches (l : list ptr) (g : shared) : shared :=
  {| heap := heap g; globalCachesMutex := globalCachesMutex g;
     globalCaches := l; waitGroups := waitGroups g;
     world := world g; now := now g; cancelled := cancelled g |}.

Definition set_waitGroups (l : list nat) (g : shared) : shared :=
  {| heap := heap g; globalCachesMutex := globalCachesMutex g;
     globalCaches := globalCaches g; waitGroups := l;
     world := world g; now := now g; cancelled := cancelled g |}.

Definition set_world (w : World) (g : shared) : shared :=
  {| heap := heap g; globalCachesMutex := globalCachesMutex g;
     globalCaches := globalCaches g; waitGroups := waitGroups g;
     world := w; now := now g; cancelled := cancelled g |}.

Definition set_now (t : Z) (g : shared) : shared :=
  {| heap := heap g; globalCachesMutex := globalCachesMutex g;
     globalCaches := globalCaches g; waitGroups := waitGroups g;
     world := world g; now := t; cancelled := cancelled g |}.

Definition set_cancelled (l : list ctxid) (g : shared) : shared :=
  {| heap := heap g; globalCachesMutex := globalCachesMutex g;
     globalCaches := globalCaches g; waitGroups := waitGroups g;
     world := world g; now := now g; cancelled := l |}.

(** What a finished call hands to its caller.  None of the exported
    functions has an error result. *)
Inductive retval :=
| RUnit                       (* Update, GlobalCacheUpdate, a goroutine body *)
| RVal (v : T)                (* Get *)
| RCache (r : ptr).           (* New *)

(** Program points.  The number is the source line the goroutine executes
    next; the arguments are its live local variables. *)
Inductive pc :=
| New_29 (c : ctxid) (p : Duration) (f : producer)
| New_35 (r : ptr) (c : ctxid)
| New_38 (r : ptr)
| New_38_wait (r : ptr)       (* inside Lock of line 38, until the readers have left *)
| New_39 (r : ptr)
| New_40 (r : ptr)
| updateLoop_46 (r : ptr) (c : ctxid)
| updateLoop_47 (r : ptr) (c : ctxid) (deadline : Z)
| Get_57 (r : ptr)
| Get_59 (r : ptr)
| Get_58 (r : ptr) (v : T)
| Update_63 (r : ptr) (k : caller)
| Update_68 (r : ptr) (newValue : T) (k : caller)
| Update_68_wait (r : ptr) (newValue : T) (k : caller)   (* inside Lock of line 68 *)
| Update_69 (r : ptr) (newValue : T) (k : caller)
| Update_70 (r : ptr) (k : caller)
| GlobalCacheUpdate_75
| GlobalCacheUpdate_80
| GlobalCacheUpdate_83 (wg : wgid)
| GlobalCacheUpdate_84 (rest : list ptr) (wg : wgid)
| GlobalCacheUpdate_91 (wg : wgid)
| GlobalCacheUpdate_76
| worker_85 (wg : wgid)
| Returned (rv : retval).

(** What one step does, as seen from outside. *)
Inductive event :=
| EvAlloc (r : ptr)
| EvInvoke (r : ptr) (k : caller)
| EvStore (r : ptr) (v : T) (k : caller)
| EvLoad (r : ptr) (v : T)
| EvLockWait (m : mutex)      (* Lock is called and has to wait for readers *)
| EvLock (m : mutex)          (* Lock returns *)
| EvUnlock (m : mutex)
| EvRLock (m : mutex)
| EvRUnlock (m : mutex)
| EvGoLoop (r : ptr) (c : ctxid)
| EvAppend (r : ptr)
| EvTimer (r : ptr) (deadline : Z)
| EvTick (r : ptr)
| EvCtxDone (r : ptr) (c : ctxid)
| EvAdd (wg : wgid) (n : nat)
| EvRange (wg : wgid) (l : list ptr)
| EvGoWorker (r : ptr) (wg : wgid)
| EvRangeEnd (wg : wgid)
| EvWait (wg : wgid)
| EvWgDone (wg : wgid).

(** Where [Update] returns to. *)
Definition after_Update (r : ptr) (k : caller) : pc :=
  match k with
  | FromNew c => New_35 r c
  | FromLoop c => updateLoop_46 r c
  | FromFanOut wg => worker_85 wg
  | FromClient => Returned RUnit
  end.

(** Line 64, [if err != nil { return }]: where [Update] goes on with the
    results of the producer. *)
Definition Update_64 (r : ptr) (k : caller) (newValue : T) (err : error) : pc :=
  match err with
  | Some _ => after_Update r k
  | None => Update_68 r newValue k
  end.

(** [time.After(d)]: the moment its channel becomes ready. *)
Definition timer_deadline (t : Z) (d : Duration) : Z := (t + Z.max 0 d)%Z.

Definition ctx_done (c : ctxid) (g : shared) : bool :=
  bool_decide (c ∈ cancelled g).

Definition timer_fired (deadline : Z) (g : shared) : bool :=
  (deadline <=? now g)%Z.

(** One statement of one goroutine: the event, the next program point, the
    goroutines it starts, and the new shared state.  [pick] is the choice
    of [select] when both of its channels are ready. *)
Definition exec (pick : bool) (p : pc) (g : shared)
  : option (event * pc * list pc * shared) :=
  match p with
  (* cache := &reCached[T]{period: period, updateFunc: updateFunc}; cache.Update() *)
  | New_29 c d f =>
      let r := length (heap g) in
      let cache := {| mu := unlocked; value := zero; period := d; updateFunc := f |} in
      Some (EvAlloc r, Update_63 r (FromNew c), [], set_heap (heap g ++ [cache]) g)
  (* go cache.updateLoop(ctx) *)
  | New_35 r c =>
      Some (EvGoLoop r c, New_38 r, [updateLoop_46 r c], g)
  (* globalCachesMutex.Lock() *)
  | New_38 r =>
      m ← Lock (globalCachesMutex g);
      if Lock_granted m
      then Some (EvLock Registry, New_39 r, [], set_globalCachesMutex m g)
      else Some (EvLockWait Registry, New_38_wait r, [], set_globalCachesMutex m g)
  | New_38_wait r =>
      if Lock_granted (globalCachesMutex g)
      then Some (EvLock Registry, New_39 r, [], g)
      else None
  (* globalCaches = append(globalCaches, cache) *)
  | New_39 r =>
      Some (EvAppend r, New_40 r, [], set_globalCaches (globalCaches g ++ [r]) g)
  (* globalCachesMutex.Unlock(); return cache *)
  | New_40 r =>
      m ← Unlock (globalCachesMutex g);
      Some (EvUnlock Registry, Returned (RCache r), [], set_globalCachesMutex m g)
  (* for { select { ...: the operands of the cases are evaluated,
     time.After(r.period) starts a timer *)
  | updateLoop_46 r c =>
      cache ← heap g !! r;
      let deadline := timer_deadline (now g) (period cache) in
      Some (EvTimer r deadline, updateLoop_47 r c deadline, [], g)
  (* case <-ctx.Done(): return   case <-time.After(r.period): r.Update() *)
  | updateLoop_47 r c deadline =>
      let stop := Some (EvCtxDone r c, Returned RUnit, [], g) in
      let tick := Some (EvTick r, Update_63 r (FromLoop c), [], g) in
      match ctx_done c g, timer_fired deadline g with
      | true, true => if pick then stop else tick
      | true, false => stop
      | false, true => tick
      | false, false => None
      end
  (* r.mu.RLock() *)
  | Get_57 r =>
      cache ← heap g !! r;
      m ← RLock (mu cache);
      Some (EvRLock (Mu r), Get_59 r, [], set_heap (<[r := set_mu m cache]> (heap g)) g)
  (* return r.value: the result is evaluated, then the deferred call runs *)
  | Get_59 r =>
      cache ← heap g !! r;
      Some (EvLoad r (value cache), Get_58 r (value cache), [], g)
  (* defer r.mu.RUnlock() *)
  | Get_58 r v =>
      cache ← heap g !! r;
      m ← RUnlock (mu cache);
      Some (EvRUnlock (Mu r), Returned (RVal v), [],
            set_heap (<[r := set_mu m cache]> (heap g)) g)
  (* newValue, err := r.updateFunc(); if err != nil { return } *)
  | Update_63 r k =>
      cache ← heap g !! r;
      let '(newValue, err, w) := updateFunc cache (world g) in
      Some (EvInvoke r k, Update_64 r k newValue err, [], set_world w g)
  (* r.mu.Lock() *)
  | Update_68 r newValue k =>
      cache ← heap g !! r;
      m ← Lock (mu cache);
      if Lock_granted m
      then Some (EvLock (Mu r), Update_69 r newValue k, [],
                 set_heap (<[r := set_mu m cache]> (heap g)) g)
      else Some (EvLockWait (Mu r), Update_68_wait r newValue k, [],
                 set_heap (<[r := set_mu m cache]> (heap g)) g)
  | Update_68_wait r newValue k =>
      cache ← heap g !! r;
      if Lock_granted (mu cache)
      then Some (EvLock (Mu r), Update_69 r newValue k, [], g)
      else None
  (* r.value = newValue *)
  | Update_69 r newValue k =>
      cache ← heap g !! r;
      Some (EvStore r newValue k, Update_70 r k, [],
            set_heap (<[r := set_value newValue cache]> (heap g)) g)
  (* r.mu.Unlock() *)
  | Update_70 r k =>
      cache ← heap g !! r;
      m ← Unlock (mu cache);
      Some (EvUnlock (Mu r), after_Update r k, [],
            set_heap (<[r := set_mu m cache]> (heap g)) g)
  (* globalCachesMutex.RLock() *)
  | GlobalCacheUpdate_75 =>
      m ← RLock (globalCachesMutex g);
      Some (EvRLock Registry, GlobalCacheUpdate_80, [], set_globalCachesMutex m g)
  (* var wg sync.WaitGroup; wg.Add(len(globalCaches)) *)
  | GlobalCacheUpdate_80 =>
      let wg := length (waitGroups g) in
      let n := length (globalCaches g) in
      Some (EvAdd wg n, GlobalCacheUpdate_83 wg, [],
            set_waitGroups (waitGroups g ++ [n]) g)
  (* for _, cache := range globalCaches: the range expression is evaluated once *)
  | GlobalCacheUpdate_83 wg =>
      Some (EvRange wg (globalCaches g), GlobalCacheUpdate_84 (globalCaches g) wg, [], g)
  (* go func(c interface{ Update() }) { defer wg.Done(); c.Update() }(cache) *)
  | GlobalCacheUpdate_84 (c :: rest) wg =>
      Some (EvGoWorker c wg, GlobalCacheUpdate_84 rest wg, [Update_63 c (FromFanOut wg)], g)
  | GlobalCacheUpdate_84 [] wg =>
      Some (EvRangeEnd wg, GlobalCacheUpdate_91 wg, [], g)
  (* wg.Wait() *)
  | GlobalCacheUpdate_91 wg =>
      match waitGroups g !! wg with
      | Some O => Some (EvWait wg, GlobalCacheUpdate_76, [], g)
      | _ => None
      end
  (* defer globalCachesMutex.RUnlock() *)
  | GlobalCacheUpdate_76 =>
      m ← RUnlock (globalCachesMutex g);
      Some (EvRUnlock Registry, Returned RUnit, [], set_globalCachesMutex m g)
  (* defer wg.Done(): a counter that would go negative is a panic *)
  | worker_85 wg =>
      match waitGroups g !! wg with
      | Some (S n) =>
          Some (EvWgDone wg, Returned RUnit, [], set_waitGroups (<[wg := n]> (waitGroups g)) g)
      | _ => None
      end
  | Returned _ => None
  end.

(** The exported functions, as the program point at which a call starts. *)
Definition New (c : ctxid) (d : Duration) (f : producer) : pc := New_29 c d f.
Definition Get (r : ptr) : pc := Get_57 r.
Definition Update (r : ptr) : pc := Update_63 r FromClient.
Definition GlobalCacheUpdate : pc := GlobalCacheUpdate_75.

(** The program points of [Get]. *)
Definition in_Get (p : pc) : bool :=
  match p with
  | Get_57 _ | Get_59 _ | Get_58 _ _ => true
  | _ => false
  end.

Definition is_invoke (e : event) : bool :=
  match e with EvInvoke _ _ => true | _ => false end.

(** *** A call on its own

    [run] executes one goroutine until it returns, with no other goroutine
    taking a step in between.  It yields the result, the events, the
    goroutines started on the way and the final shared state; [None] when
    the goroutine cannot go on, or has not returned within [fuel] steps. *)
Fixpoint run (fuel : nat) (p : pc) (g : shared)
  : option (retval * list event * list pc * shared) :=
  match p with
  | Returned rv => Some (rv, [], [], g)
  | _ =>
      match fuel with
      | O => None
      | S fuel' =>
          '(e, p', started, g') ← exec true p g;
          '(rv, es, started', g'') ← run fuel' p' g';
          Some (rv, e :: es, started ++ started', g'')
      end
  end.

(** The longest straight-line path, through [New], has nine statements. *)
Definition call (p : pc) (g : shared) := run 12 p g.

(** *** All goroutines together *)

Record config := { threads : list pc; mem : shared }.

(** A goroutine of the client program may enter the package only through
    an exported function. *)
Definition entry (p : pc) : bool :=
  match p with
  | New_29 _ _ _ | Get_57 _ | Update_63 _ FromClient | GlobalCacheUpdate_75 => true
  | _ => false
  end.

Inductive action :=
| Run (i : nat) (pick : bool)   (* the scheduler lets goroutine [i] run one statement *)
| Call (p : pc)                 (* the client program calls an exported function *)
| Cancel (c : ctxid)            (* the owner of a context cancels it *)
| Advance (dt : Z).             (* time passes *)

Definition do (a : action) (s : config) : option (list event * config) :=
  match a with
  | Run i pick =>
      p ← threads s !! i;
      '(e, p', started, g) ← exec pick p (mem s);
      Some ([e], {| threads := <[i := p']> (threads s) ++ started; mem := g |})
  | Call p =>
      if entry p
      then Some ([], {| threads := threads s ++ [p]; mem := mem s |})
      else None
  | Cancel c =>
      Some ([], {| threads := threads s;
                   mem := set_cancelled (c :: cancelled (mem s)) (mem s) |})
  | Advance dt =>
      if (0 <=? dt)%Z
      then Some ([], {| threads := threads s;
                        mem := set_now (now (mem s) + dt)%Z (mem s) |})
      else None
  end.

Fixpoint steps (sched : list action) (s : config) : option (list event * config) :=
  match sched with
  | [] => Some ([], s)
  | a :: sched' =>
      '(tr, s') ← do a s;
      '(tr', s'') ← steps sched' s';
      Some (tr ++ tr', s'')
  end.

(** The process at start: no cache, an empty registry, no goroutine in the
    package. *)
Definition init (w : World) : config :=
  {| threads := [];
     mem := {| heap := []; globalCachesMutex := unlocked; globalCaches := [];
               waitGroups := []; world := w; now := 0; cancelled := [] |} |}.

Definition reachable (w : World) (tr : list event) (s : config) : Prop :=
  ∃ sched, steps sched (init w) = Some (tr, s).

End Recached.

Arguments mu {T World} _.
Arguments value {T World} _.
Arguments period {T World} _.
Arguments updateFunc {T World} _.

(** Sums over lists. *)
Notation "'Σ' f" := (sum_list_with f) (at level 10, f at level 9, only parsing).

(** *** Accounting

    Sums over the goroutines and projections of the history, with which the
    invariants of the machine are stated. *)
Section Accounting.

Context {T World : Type}.
Implicit Types (p : pc T World) (e : event T).

(** Number of occurrences in a list of pointers. *)
Definition occ (r : ptr) (l : list ptr) : nat := count_occ Nat.eq_dec l r.

(** Between [RLock] and the deferred [RUnlock] of [GlobalCacheUpdate]. *)
Definition in_fanout p : nat :=
  match p with
  | GlobalCacheUpdate_80 | GlobalCacheUpdate_83 _ | GlobalCacheUpdate_84 _ _
  | GlobalCacheUpdate_91 _ | GlobalCacheUpdate_76 => 1
  | _ => 0
  end.

(** Between [Lock] and [Unlock] in [New]: the goroutine holds the write
    lock of the registry. *)
Definition in_append p : nat :=
  match p with
  | New_39 _ | New_40 _ => 1
  | _ => 0
  end.

(** Inside [Lock] at line 38: the goroutine waits for the write lock of the
    registry, and keeps new readers out. *)
Definition in_Lock_38 p : nat :=
  match p with
  | New_38_wait _ => 1
  | _ => 0
  end.

(** The fan-out that declared wait group [wg], until its [Wait] returns. *)
Definition owner (wg : wgid) p : nat :=
  match p with
  | GlobalCacheUpdate_83 wg' | GlobalCacheUpdate_84 _ wg' | GlobalCacheUpdate_91 wg' =>
      if decide (wg = wg') then 1 else 0
  | _ => 0
  end.

Definition at_83 (wg : wgid) p : nat :=
  match p with
  | GlobalCacheUpdate_83 wg' => if decide (wg = wg') then 1 else 0
  | _ => 0
  end.

(** Goroutines the fan-out of [wg] has still to start, the registry having
    [n] entries. *)
Definition pending (n : nat) (wg : wgid) p : nat :=
  match p with
  | GlobalCacheUpdate_83 wg' => if decide (wg = wg') then n else 0
  | GlobalCacheUpdate_84 rest wg' => if decide (wg = wg') then length rest else 0
  | _ => 0
  end.

Definition for_fanout (wg : wgid) (k : caller) : nat :=
  match k with
  | FromFanOut wg' => if decide (wg = wg') then 1 else 0
  | _ => 0
  end.

(** A goroutine of the fan-out of [wg] that has not yet run [wg.Done()]. *)
Definition live (wg : wgid) p : nat :=
  match p with
  | Update_63 _ k | Update_68 _ _ k | Update_68_wait _ _ k | Update_69 _ _ k
  | Update_70 _ k => for_fanout wg k
  | worker_85 wg' => if decide (wg = wg') then 1 else 0
  | _ => 0
  end.

(** ... that has not yet called the producer of [r]. *)
Definition uninvoked (wg : wgid) (r : ptr) p : nat :=
  match p with
  | Update_63 r' k => if decide (r = r') then for_fanout wg k else 0
  | _ => 0
  end.

(** Occurrences of [r] among the entries the fan-out of [wg] has still to
    start a goroutine for. *)
Definition unspawned (wg : wgid) (r : ptr) p : nat :=
  match p with
  | GlobalCacheUpdate_84 rest wg' => if decide (wg = wg') then occ r rest else 0
  | _ => 0
  end.

Definition for_loop (k : caller) : nat :=
  match k with
  | FromNew _ | FromLoop _ => 1
  | _ => 0
  end.

(** The goroutine that is, or is going to start, the background loop of
    cache [r]. *)
Definition looper (r : ptr) p : nat :=
  match p with
  | Update_63 r' k | Update_68 r' _ k | Update_68_wait r' _ k | Update_69 r' _ k
  | Update_70 r' k =>
      if decide (r = r') then for_loop k else 0
  | New_35 r' _ | updateLoop_46 r' _ | updateLoop_47 r' _ _ =>
      if decide (r = r') then 1 else 0
  | _ => 0
  end.

(** The caches whose producer the goroutines of the fan-out of [wg] have
    called, in the order of the calls. *)
Definition invoked_by (wg : wgid) e : list ptr :=
  match e with
  | EvInvoke r (FromFanOut wg') => if decide (wg = wg') then [r] else []
  | _ => []
  end.

Definition invoked (wg : wgid) (tr : list (event T)) : list ptr :=
  tr ≫= invoked_by wg.

(** The entries the fan-out of [wg] ranges over. *)
Definition ranged_by (wg : wgid) e : list ptr :=
  match e with
  | EvRange wg' l => if decide (wg = wg') then l else []
  | _ => []
  end.

Definition snapshot (wg : wgid) (tr : list (event T)) : list ptr :=
  tr ≫= ranged_by wg.

(** The caches appended to the registry. *)
Definition appended_by e : list ptr :=
  match e with EvAppend r => [r] | _ => [] end.

Definition appended (tr : list (event T)) : list ptr :=
  tr ≫= appended_by.

(** A call of the producer of [r], or a store to [r], made by the
    background loop. *)
Definition automatic (r : ptr) e : bool :=
  match e with
  | EvInvoke r' (FromLoop _) | EvStore r' _ (FromLoop _) => bool_decide (r = r')
  | _ => false
  end.

(** A step of a goroutine of some fan-out, or the return of its [Wait]. *)
Definition of_fanout e : bool :=
  match e with
  | EvInvoke _ (FromFanOut _) | EvStore _ _ (FromFanOut _) | EvWgDone _
  | EvGoWorker _ _ | EvWait _ => true
  | _ => false
  end.

Unset Implicit Arguments.

(** *** Invariants

    What holds of the goroutines ([threads s]), the shared state ([mem s])
    and the events so far ([tr]) in every execution. *)

Implicit Types (g : shared T World) (s : config T World).
Implicit Types (tr : list (event T)).

(** The counter of a wait group; zero when it has not been declared. *)
Definition counter g (wg : wgid) : nat := default 0 (waitGroups g !! wg).

(** The locks of the registry: the read lock is held by the fan-outs
    between lines 75 and 76; the writer is the [New] that is inside [Lock]
    at line 38 or at lines 39 and 40; and while a [New] is at lines 39 and
    40 no fan-out holds the read lock. *)
Record lock_inv s : Prop := {
  inv_readers :
    readers (globalCachesMutex (mem s)) = Σ in_fanout (threads s);
  inv_writer :
    Nat.b2n (writer (globalCachesMutex (mem s)))
    = Σ in_Lock_38 (threads s) + Σ in_append (threads s);
  inv_excl :
    0 < Σ in_append (threads s) →
    readers (globalCachesMutex (mem s)) = 0
}.

(** The wait groups: the counter of a wait group is the number of
    goroutines its fan-out has still to start plus the number of those it
    has started that have not yet run [wg.Done()]; a wait group belongs to
    at most one fan-out, and one that is past [Wait] has counter zero. *)
Record wg_inv s : Prop := {
  inv_counter : ∀ wg,
    counter (mem s) wg =
      Σ (pending (length (globalCaches (mem s))) wg) (threads s)
      + Σ (live wg) (threads s);
  inv_owner : ∀ wg,
    Σ (owner wg) (threads s) ≤
      if decide (wg < length (waitGroups (mem s))) then 1 else 0;
  inv_idle : ∀ wg,
    Σ (owner wg) (threads s) = 0 → counter (mem s) wg = 0
}.

(** The history: of the entries a fan-out ranges over, each is either still
    to be given a goroutine, or has a goroutine that has not yet called the
    producer, or has had its producer called; and a fan-out evaluates its
    range once. *)
Record hist_inv tr s : Prop := {
  inv_invoked : ∀ wg r,
    occ r (invoked wg tr) + Σ (uninvoked wg r) (threads s)
    + Σ (unspawned wg r) (threads s) = occ r (snapshot wg tr);
  inv_fresh : ∀ wg,
    length (waitGroups (mem s)) ≤ wg → snapshot wg tr = [];
  inv_range : ∀ wg,
    0 < Σ (at_83 wg) (threads s) → snapshot wg tr = []
}.

(** Every cache has at most one goroutine that is, or is about to start,
    its background loop; a cache not yet allocated has none. *)
Definition loop_inv s : Prop :=
  ∀ r, Σ (looper r) (threads s) ≤ if decide (r < length (heap (mem s))) then 1 else 0.

Record inv tr s : Prop := {
  inv_lock : lock_inv s;
  inv_wg : wg_inv s;
  inv_hist : hist_inv tr s;
  inv_loop : loop_inv s
}.


(** Cache [r] exists and no goroutine is, or is going to start, its loop. *)
Definition loop_gone (r : ptr) s : Prop :=
  Σ (looper r) (threads s) = 0 ∧ r < length (heap (mem s)).

(** Cache [r] exists, nobody holds its lock and no writer waits for it. *)
Definition idle g (r : ptr) : Prop :=
  ∃ cache, heap g !! r = Some cache ∧ mu cache = unlocked.

(** No [New] holds the write lock of the registry or waits for it inside
    [Lock], and the locks of the registered caches are free. *)
Definition quiet g : Prop :=
  writer (globalCachesMutex g) = false ∧ Forall (idle g) (globalCaches g).

(** *** More accounting: the locks of the caches, the constructions, the
    loops *)

(** The lock of cache [r]; that of a cache not yet allocated is free. *)
Definition mu_of g (r : ptr) : RWMutex := default unlocked (mu <$> heap g !! r).

(** Between [RLock] and the deferred [RUnlock] of [Get] on cache [r]. *)
Definition reading (r : ptr) p : nat :=
  match p with
  | Get_59 r' | Get_58 r' _ => if decide (r = r') then 1 else 0
  | _ => 0
  end.

(** Between [Lock] and [Unlock] of [Update] on cache [r]: the goroutine
    holds the write lock of the cache. *)
Definition writing (r : ptr) p : nat :=
  match p with
  | Update_69 r' _ _ | Update_70 r' _ => if decide (r = r') then 1 else 0
  | _ => 0
  end.

(** Inside [Lock] at line 68 on cache [r]. *)
Definition in_Lock_68 (r : ptr) p : nat :=
  match p with
  | Update_68_wait r' _ _ => if decide (r = r') then 1 else 0
  | _ => 0
  end.

(** The lock of every cache: its readers are the [Get]s between lines 57
    and 58; its writer is the [Update] that is inside [Lock] at line 68 or
    at lines 69 and 70; and while an [Update] is at lines 69 and 70 no
    [Get] holds the read lock. *)
Record cache_lock_inv s : Prop := {
  inv_cache_readers : ∀ r,
    readers (mu_of (mem s) r) = Σ (reading r) (threads s);
  inv_cache_writer : ∀ r,
    Nat.b2n (writer (mu_of (mem s) r))
    = Σ (in_Lock_68 r) (threads s) + Σ (writing r) (threads s);
  inv_cache_excl : ∀ r,
    0 < Σ (writing r) (threads s) → readers (mu_of (mem s) r) = 0
}.

(** The statements that are run-time errors when the lock is not held or
    the counter is zero: [Unlock], [RUnlock] and [wg.Done()]. *)
Definition releasing p : bool :=
  match p with
  | New_40 _ | GlobalCacheUpdate_76 | Update_70 _ _ | Get_58 _ _ | worker_85 _ => true
  | _ => false
  end.

Definition for_New (k : caller) : nat :=
  match k with
  | FromNew _ => 1
  | _ => 0
  end.

(** The [New] that has allocated cache [r] and not yet appended it. *)
Definition registering (r : ptr) p : nat :=
  match p with
  | Update_63 r' k | Update_68 r' _ k | Update_68_wait r' _ k | Update_69 r' _ k
  | Update_70 r' k =>
      if decide (r = r') then for_New k else 0
  | New_35 r' _ | New_38 r' | New_38_wait r' | New_39 r' =>
      if decide (r = r') then 1 else 0
  | _ => 0
  end.

(** The [New] that has appended cache [r], also after its return. *)
Definition registered (r : ptr) p : nat :=
  match p with
  | New_40 r' | Returned (RCache r') => if decide (r = r') then 1 else 0
  | _ => 0
  end.

(** The registry and the constructors: every cache has one [New], and the
    cache is in the registry as often as its [New] has appended it. *)
Record registry_inv s : Prop := {
  inv_registered : ∀ r,
    occ r (globalCaches (mem s)) = Σ (registered r) (threads s);
  inv_constructed : ∀ r,
    Σ (registering r) (threads s) + Σ (registered r) (threads s) =
      if decide (r < length (heap (mem s))) then 1 else 0
}.

(** The return of the background loop of cache [r]. *)
Definition loop_exit (r : ptr) e : nat :=
  match e with
  | EvCtxDone r' _ => if decide (r = r') then 1 else 0
  | _ => 0
  end.

(** Every cache has its loop, or the goroutine about to start it, until
    the loop returns, and it returns once. *)
Definition loop_life_inv tr s : Prop :=
  ∀ r, Σ (looper r) (threads s) + Σ (loop_exit r) tr =
       if decide (r < length (heap (mem s))) then 1 else 0.

(** What [Update] does to the shared state when it runs on its own on a
    cache whose lock is free: lines 63 to 70 as one function. *)
Definition refreshed (r : ptr) g : shared T World :=
  match heap g !! r with
  | Some cache =>
      let '(newValue, err, w) := updateFunc cache (world g) in
      match err with
      | Some _ => set_world w g
      | None => set_heap (<[r := set_value newValue cache]> (heap g)) (set_world w g)
      end
  | None => g
  end.


(** A producer that returns an error whatever it finds. *)
Definition always_fails (f : producer T World) : Prop :=
  ∀ w, (f w).1.2 ≠ None.

(** Past the test of line 64 in [Update] of [r], with a value to store. *)
Definition storing (r : ptr) p : nat :=
  match p with
  | Update_68 r' _ _ | Update_68_wait r' _ _ | Update_69 r' _ _ =>
      if decide (r = r') then 1 else 0
  | _ => 0
  end.

Definition stores (r : ptr) e : bool :=
  match e with
  | EvStore r' _ _ => bool_decide (r = r')
  | _ => false
  end.

(** Nothing has been stored in [r] and nothing is about to be. *)
Definition unstored (zero : T) tr s (r : ptr) : Prop :=
  Σ (storing r) (threads s) = 0
  ∧ Forall (λ e, stores r e = false) tr
  ∧ default zero (value <$> heap (mem s) !! r) = zero.

(** This holds of what is not yet a cache, and of a cache whose producer
    always fails. *)
Definition failing_inv (zero : T) tr s : Prop :=
  ∀ r, (∀ cache, heap (mem s) !! r = Some cache → always_fails (updateFunc cache)) →
       unstored zero tr s r.

(** The value of the last store to [r] in a history; the zero value when
    there is none. *)
Definition last_stored (zero : T) (r : ptr) tr : T :=
  foldl (λ v e, match e with
                | EvStore r' v' _ => if decide (r = r') then v' else v
                | _ => v
                end) zero tr.





(** The refreshes of a list of caches, one after the other. *)
Definition refreshed_all (l : list ptr) g : shared T World :=
  foldl (λ g' c, refreshed c g') g l.





(** A store to [r] that is not the one of its [New]: by the background
    loop, by a goroutine of a fan-out, or by a client's [Update]. *)
Definition stores_other (r : ptr) e : bool :=
  match e with
  | EvStore _ _ (FromNew _) => false
  | EvStore r' _ _ => bool_decide (r = r')
  | _ => false
  end.

(** Where the goroutine [t] that runs [New] is after its call of the
    producer, which returned [v] and [err] and found the value [v0] in the
    cache [r], and what the cache holds. *)
Definition New_phase (t : nat) (r : ptr) (v : T) (err : error) (v0 : T) s : Prop :=
  match threads s !! t with
  | Some (Update_68 r' v' (FromNew _)) | Some (Update_68_wait r' v' (FromNew _))
  | Some (Update_69 r' v' (FromNew _)) =>
      r' = r ∧ v' = v ∧ err = None ∧ value <$> heap (mem s) !! r = Some v0
  | Some (Update_70 r' (FromNew _)) =>
      r' = r ∧ err = None ∧ value <$> heap (mem s) !! r = Some v
  | Some (New_35 r' _) | Some (New_38 r') | Some (New_38_wait r')
  | Some (New_39 r') | Some (New_40 r') | Some (Returned (RCache r')) =>
      r' = r
      ∧ value <$> heap (mem s) !! r
        = Some (match err with None => v | Some _ => v0 end)
  | _ => False
  end.

End Accounting.

(** ** Callers

    A client that calls [Update] [n] times in a row, as the tests do. *)
Section Callers.

Context {T World : Type} (zero : T).

Fixpoint Updates (n : nat) (r : ptr) (g : shared T World) : option (shared T World) :=
  match n with
  | O => Some g
  | S n' =>
      '(_, _, _, g') ← call zero (Update r) g;
      Updates n' r g'
  end.

End Callers.


(** ** Concrete programs

    Caches of integers whose producers act on a counter, as in the tests of
    the package. *)
Module Examples.

(** [value++; return value, nil] *)
Definition counting : producer Z Z := fun w => ((w + 1, None), w + 1)%Z.

(** [return 7, errors.New("update failed")] *)
Definition failing : producer Z Z :=
  fun w => ((7%Z, Some "update failed"%string), w).

Definition cache0 (d : Duration) (f : producer Z Z) (c0 : Z) : reCached Z Z :=
  {| mu := unlocked; value := c0; period := d; updateFunc := f |}.

(** A process in which one cache has been constructed and registered. *)
Definition one_cache (d : Duration) (f : producer Z Z) (c0 : Z) : shared Z Z :=
  {| heap := [cache0 d f c0];
     globalCachesMutex := unlocked; globalCaches := [0]; waitGroups := [];
     world := c0; now := 0; cancelled := [] |}.

(** The scheduler lets goroutine [i] run [n] statements in a row. *)
Definition burst (i n : nat) : list (action Z Z) := replicate n (Run i true).

(** The process at start, the counter of the client being 1. *)
Definition start : config Z Z := init 1%Z.

(** The trace and the state after a schedule. *)
Definition after (sched : list (action Z Z)) : list (event Z) * config Z Z :=
  default ([], start) (steps 0%Z sched start).

(** ... and after one more action. *)
Definition next (a : action Z Z) (x : list (event Z) * config Z Z)
  : list (event Z) * config Z Z :=
  default x (do 0%Z a x.2).

(** A client constructs a cache on context 0: goroutine 0 runs [New] to
    its end, goroutine 1 is the background loop. *)
Definition boot (d : Duration) (f : producer Z Z) : list (action Z Z) :=
  Call (New 0 d f) :: burst 0 9.

(** Then a client calls [GlobalCacheUpdate], as goroutine 2. *)
Definition fanout_called : list (action Z Z) :=
  boot 3600 counting ++ [Call GlobalCacheUpdate].

(** The fan-out up to the start of the goroutine of its only entry, which
    is goroutine 3. *)
Definition fanout_started : list (action Z Z) :=
  fanout_called ++ burst 2 4.

(** ... and up to [wg.Wait()], goroutine 3 having run to its end. *)
Definition fanout_waiting : list (action Z Z) :=
  fanout_started ++ burst 2 1 ++ burst 3 5.

(** The whole fan-out, from [RLock] to the return. *)
Definition fanout_run : list (action Z Z) :=
  burst 2 4 ++ burst 3 5 ++ burst 2 2.

Definition fanout_done : list (event Z) * config Z Z :=
  default ([], start)
    (steps 0%Z (Run 2 true :: fanout_run) (after fanout_called).2).

(** The background loop waits in its [select] when the context is
    cancelled, its timer not having fired. *)
Definition loop_waiting : list (action Z Z) :=
  boot 5 counting ++ [Run 1 true; Cancel 0].

(** The timer fires, the loop calls the producer, and the context is
    cancelled before the loop has stored the result. *)
Definition refresh_in_flight : list (action Z Z) :=
  boot 5 counting
  ++ [Run 1 true; Advance 5; Run 1 true; Run 1 true; Cancel 0; Run 1 true].

(** The loop has stored the result of its refresh and is about to unlock. *)
Definition store_done : list (action Z Z) :=
  refresh_in_flight ++ [Run 1 true].

(** A fan-out has taken the read lock; a second cache is constructed, as
    goroutine 3, up to the [Lock] of line 38. *)
Definition New_during_fanout : list (action Z Z) :=
  fanout_called ++ [Run 2 true; Call (New 0 5 counting)] ++ burst 3 6.

(** The background loop has returned after the cancellation. *)
Definition loop_returned : list (action Z Z) :=
  loop_waiting ++ [Run 1 true].

(** A cache whose producer fails is constructed, and a client calls
    [Update] on it. *)
Definition failing_cache : list (action Z Z) :=
  Call (New 0 3600 failing) :: burst 0 6 ++ [Call (Update 0); Run 2 true].

(** The first call fails, the later ones count:
    [if first { first = false; return 0, errors.New("update failed") };
     value++; return value, nil], the world being the number of the call. *)
Definition failing_first : producer Z Z :=
  fun w => if (w =? 1)%Z
           then ((0%Z, Some "update failed"%string), (w + 1)%Z)
           else (((w + 1)%Z, None), (w + 1)%Z).

(** [New] has allocated the cache and is about to call the producer. *)
Definition New_at_producer : list (action Z Z) :=
  [Call (New 0 3600 counting); Run 0 true].

(** [New] calls the producer and runs to its return; the loop starts its
    timer; a client calls [Get], which takes the read lock. *)
Definition New_then_Get : list (action Z Z) :=
  burst 0 7 ++ [Run 1 true; Call (Get 0); Run 2 true].

Definition Get_reading : list (event Z) * config Z Z :=
  default ([], start)
    (steps 0%Z (Run 0 true :: New_then_Get) (after New_at_producer).2).

(** A cache with period zero: [New] starts the loop at line 35, the loop
    runs one round before [New] goes on to line 38, then [New] returns and
    a client calls [Get]. *)
Definition early_refresh : list (action Z Z) :=
  Call (New 0 0 counting) :: burst 0 6 ++ burst 1 6 ++ burst 0 3
  ++ [Call (Get 0)] ++ burst 2 3.

(** The same when the first call of the producer fails. *)
Definition early_refresh_after_failure : list (action Z Z) :=
  Call (New 0 0 failing_first) :: burst 0 3 ++ burst 1 6 ++ burst 0 3
  ++ [Call (Get 0)] ++ burst 2 3.

(** Three caches that share a counter, as in [TestGlobalCacheUpdate]; their
    constructors are the goroutines 0, 2 and 4, their loops 1, 3 and 5. *)
Definition three_caches : list (action Z Z) :=
  boot 3600 counting
  ++ (Call (New 0 3600 counting) :: burst 2 9)
  ++ (Call (New 0 3600 counting) :: burst 4 9).

(** Then a client calls [GlobalCacheUpdate], as goroutine 6. *)
Definition fanout3_called : list (action Z Z) :=
  three_caches ++ [Call GlobalCacheUpdate].



(** A [New] waits inside [Lock] at line 38 for a fan-out to release the
    read lock, and a second [GlobalCacheUpdate] is called, as goroutine 5. *)
Definition writer_waiting : list (action Z Z) :=
  New_during_fanout ++ [Run 3 true; Call GlobalCacheUpdate].

(** A [Get] holds the read lock of the cache (goroutine 2), an [Update]
    waits inside [Lock] at line 68 (goroutine 3), and a second [Get] is
    called (goroutine 4). *)
Definition reader_behind_writer : list (action Z Z) :=
  boot 5 counting
  ++ [Call (Get 0); Run 2 true; Call (Update 0); Run 3 true; Run 3 true;
      Call (Get 0)].

End Examples.

(** ** Properties of a call on its own *)

Lemma fmap_insert_same {A B} (f : A → B) (l : list A) i x y :
  l !! i = Some x → f y = f x → f <$> <[i := y]> l = f <$> l.
Proof.
  intros Hl Hf. rewrite list_fmap_insert. apply list_insert_id.
  rewrite list_lookup_fmap, Hl. simpl. congruence.
Qed.

Section Sequential.

Context {T World : Type} (zero : T).
Implicit Types (g : shared T World) (cache : reCached T World) (p : pc T World).
Implicit Types (r : ptr) (k : caller) (v : T) (w : World).

Lemma run_S fuel p g e p' started g' :
  exec zero true p g = Some (e, p', started, g') →
  run zero (S fuel) p g =
    '(rv, es, started', g'') ← run zero fuel p' g';
    Some (rv, e :: es, started ++ started', g'').
Proof.
  intros He. destruct p; try (simpl in He; discriminate);
    cbn [run]; rewrite He; reflexivity.
Qed.

Lemma run_Returned fuel rv g :
  run zero fuel (Returned rv) g = Some (rv, [], [], g).
Proof. destruct fuel; reflexivity. Qed.

(** Line 63, whoever called [Update]. *)
Lemma exec_Update_63 pick r k g cache v e w :
  heap g !! r = Some cache →
  updateFunc cache (world g) = (v, e, w) →
  exec zero pick (Update_63 r k) g =
    Some (EvInvoke r k, Update_64 r k v e, [], set_world w g).
Proof. intros Hr Hf. simpl. rewrite Hr. simpl. rewrite Hf. reflexivity. Qed.

(** Lines 68 to 70 on a mutex nobody holds. *)
Lemma run_Update_68 fuel r k v g cache :
  heap g !! r = Some cache →
  mu cache = unlocked →
  run zero (S (S (S fuel))) (Update_68 r v k) g =
    '(rv, es, started, g') ←
      run zero fuel (after_Update r k)
        (set_heap (<[r := set_value v cache]> (heap g)) g);
    Some (rv, EvLock (Mu r) :: EvStore r v k :: EvUnlock (Mu r) :: es, started, g').
Proof.
  intros Hr Hmu. pose proof (lookup_lt_Some _ _ _ Hr) as Hlt.
  erewrite run_S; last first.
  { simpl. rewrite Hr. simpl. rewrite Hmu. reflexivity. }
  erewrite run_S; last first.
  { simpl. rewrite list_lookup_insert_eq by done. reflexivity. }
  erewrite run_S; last first.
  { simpl. rewrite list_lookup_insert_eq by (rewrite length_insert; done).
    reflexivity. }
  rewrite !list_insert_insert_eq. simpl.
  replace (set_mu _ _) with (set_value v cache)
    by (destruct cache; simpl in *; subst; reflexivity).
  destruct g; simpl.
  destruct (run _ _ _ _) as [[[[rv es] st] g']|]; reflexivity.
Qed.

Lemma Update_fails g r cache v e w :
  heap g !! r = Some cache →
  updateFunc cache (world g) = (v, Some e, w) →
  call zero (Update r) g = Some (RUnit, [EvInvoke r FromClient], [], set_world w g).
Proof.
  intros Hr Hf. unfold call, Update.
  erewrite run_S by (eapply exec_Update_63; eauto).
  reflexivity.
Qed.

Lemma Update_succeeds g r cache v w :
  heap g !! r = Some cache →
  mu cache = unlocked →
  updateFunc cache (world g) = (v, None, w) →
  call zero (Update r) g =
    Some (RUnit,
          [EvInvoke r FromClient; EvLock (Mu r); EvStore r v FromClient; EvUnlock (Mu r)],
          [],
          set_heap (<[r := set_value v cache]> (heap g)) (set_world w g)).
Proof.
  intros Hr Hmu Hf. unfold call, Update.
  erewrite run_S by (eapply exec_Update_63; eauto).
  cbn [Update_64]. erewrite run_Update_68 by eauto. reflexivity.
Qed.

Lemma Get_returns g r cache :
  heap g !! r = Some cache →
  writer (mu cache) = false →
  call zero (Get r) g =
    Some (RVal (value cache),
          [EvRLock (Mu r); EvLoad r (value cache); EvRUnlock (Mu r)], [], g).
Proof.
  intros Hr Hw. pose proof (lookup_lt_Some _ _ _ Hr) as Hlt.
  unfold call, Get.
  erewrite run_S; last first.
  { simpl. rewrite Hr. simpl. unfold RLock. rewrite Hw. reflexivity. }
  erewrite run_S; last first.
  { simpl. rewrite list_lookup_insert_eq by done. reflexivity. }
  erewrite run_S; last first.
  { simpl. rewrite list_lookup_insert_eq by done. reflexivity. }
  simpl. rewrite list_insert_insert_eq.
  replace (set_mu _ _) with cache
    by (destruct cache as [[] ? ? ?]; simpl in *; subst; reflexivity).
  rewrite list_insert_id by done. destruct g; reflexivity.
Qed.

(** Lines 35 to 42 when nobody holds the registry lock. *)
Lemma run_New_35 fuel r c g :
  globalCachesMutex g = unlocked →
  run zero (S (S (S (S fuel)))) (New_35 r c) g =
    Some (RCache r,
          [EvGoLoop r c; EvLock Registry; EvAppend r; EvUnlock Registry],
          [updateLoop_46 r c],
          set_globalCaches (globalCaches g ++ [r]) g).
Proof.
  intros Hm.
  erewrite run_S by reflexivity.
  erewrite run_S by (cbn [exec]; rewrite Hm; reflexivity).
  erewrite run_S by reflexivity.
  erewrite run_S by reflexivity.
  rewrite run_Returned. destruct g; simpl in *; subst; reflexivity.
Qed.

Lemma New_returns g c d f v e w :
  globalCachesMutex g = unlocked →
  f (world g) = (v, e, w) →
  call zero (New c d f) g =
    Some (RCache (length (heap g)),
          [EvAlloc (length (heap g)); EvInvoke (length (heap g)) (FromNew c)]
          ++ match e with
             | None => [EvLock (Mu (length (heap g)));
                        EvStore (length (heap g)) v (FromNew c);
                        EvUnlock (Mu (length (heap g)))]
             | Some _ => []
             end
          ++ [EvGoLoop (length (heap g)) c; EvLock Registry;
              EvAppend (length (heap g)); EvUnlock Registry],
          [updateLoop_46 (length (heap g)) c],
          {| heap := heap g ++
                     [{| mu := unlocked;
                         value := match e with None => v | Some _ => zero end;
                         period := d; updateFunc := f |}];
             globalCachesMutex := unlocked;
             globalCaches := globalCaches g ++ [length (heap g)];
             waitGroups := waitGroups g; world := w; now := now g;
             cancelled := cancelled g |}).
Proof.
  intros Hm Hf. unfold call, New.
  set (r := length (heap g)).
  set (cache := {| mu := unlocked; value := zero; period := d; updateFunc := f |}).
  erewrite run_S by reflexivity. fold r cache.
  assert (Hr : heap (set_heap (heap g ++ [cache]) g) !! r = Some cache)
    by apply list_lookup_middle, eq_refl.
  erewrite run_S by (eapply exec_Update_63; [exact Hr | exact Hf]).
  destruct e as [msg|]; cbn [Update_64 after_Update].
  - rewrite run_New_35 by exact Hm. destruct g; simpl in *; subst; reflexivity.
  - erewrite run_Update_68 by (first [exact Hr | reflexivity]).
    cbn [after_Update]. rewrite run_New_35 by exact Hm.
    cbn [heap set_heap set_world].
    unfold r at 3. rewrite insert_app_r_alt, Nat.sub_diag by done.
    destruct g; simpl in *; subst; reflexivity.
Qed.

(** *** What [Update], [Get] and [New] do *)

(** C1. When the producer returns a non-nil error, [Update] leaves the
    stored value as it was and hands no error to anybody: at each of its
    call sites (in [New], in the background loop, in a goroutine of
    [GlobalCacheUpdate], in a client) control goes back to the caller with
    the caches and the registry untouched; a client's call returns without
    a result, and a [Get] after it returns the value stored before. *)
Theorem Update_error_keeps_value g r cache v e w :
  heap g !! r = Some cache →
  updateFunc cache (world g) = (v, Some e, w) →
  (∀ pick k, ∃ g',
     exec zero pick (Update_63 r k) g =
       Some (EvInvoke r k, after_Update r k, [], g')
     ∧ heap g' = heap g ∧ globalCaches g' = globalCaches g)
  ∧ ∃ g',
      call zero (Update r) g = Some (RUnit, [EvInvoke r FromClient], [], g')
      ∧ heap g' = heap g
      ∧ value <$> heap g' !! r = Some (value cache)
      ∧ (writer (mu cache) = false →
         ∃ tr, call zero (Get r) g' = Some (RVal (value cache), tr, [], g')).
Proof.
  intros Hr Hf. split.
  - intros pick k. exists (set_world w g).
    erewrite exec_Update_63 by eauto. auto.
  - exists (set_world w g). split; [eapply Update_fails; eauto|].
    split; [reflexivity|]. split; [simpl; rewrite Hr; reflexivity|].
    intros Hw. eexists. eapply Get_returns; eauto.
Qed.

(** C2. When the producer returns [(v, nil)], the value stored right after
    [Update] is [v], in the same cache and with every other field and cache
    as before; when it returns an error, the caches are as they were. *)
Theorem Update_stores_producer_result g r cache v e w :
  heap g !! r = Some cache →
  mu cache = unlocked →
  updateFunc cache (world g) = (v, e, w) →
  ∃ tr g',
    call zero (Update r) g = Some (RUnit, tr, [], g')
    ∧ heap g' = match e with
                | None => <[r := set_value v cache]> (heap g)
                | Some _ => heap g
                end
    ∧ value <$> heap g' !! r =
        Some (match e with None => v | Some _ => value cache end).
Proof.
  intros Hr Hmu Hf. pose proof (lookup_lt_Some _ _ _ Hr) as Hlt.
  destruct e as [msg|].
  - do 2 eexists. split; [eapply Update_fails; eauto|].
    split; [reflexivity|]. simpl. rewrite Hr. reflexivity.
  - do 2 eexists. split; [eapply Update_succeeds; eauto|].
    split; [reflexivity|]. simpl.
    rewrite list_lookup_insert_eq by done. reflexivity.
Qed.

(** C4. [New] returns a cache whatever the producer does.  Its steps are, in
    this order: the allocation, one call of the producer (followed by the
    store under the lock of the cache when the error is nil, by nothing when
    it is not, so that the zero value stays), the start of the background
    loop, the append to the registry under its lock, the return.  The
    goroutine started is the loop of the new cache, and nothing else in the
    shared state changes. *)
Theorem New_steps_in_order g c d f v e w :
  globalCachesMutex g = unlocked →
  f (world g) = (v, e, w) →
  let r := length (heap g) in
  call zero (New c d f) g =
    Some (RCache r,
          [EvAlloc r; EvInvoke r (FromNew c)]
          ++ match e with
             | None => [EvLock (Mu r); EvStore r v (FromNew c); EvUnlock (Mu r)]
             | Some _ => []
             end
          ++ [EvGoLoop r c; EvLock Registry; EvAppend r; EvUnlock Registry],
          [updateLoop_46 r c],
          {| heap := heap g ++
                     [{| mu := unlocked;
                         value := match e with None => v | Some _ => zero end;
                         period := d; updateFunc := f |}];
             globalCachesMutex := unlocked;
             globalCaches := globalCaches g ++ [r];
             waitGroups := waitGroups g; world := w; now := now g;
             cancelled := cancelled g |}).
Proof. intros Hm Hf r. apply New_returns; assumption. Qed.

(** C9. [Get] returns the stored value and leaves the whole shared state as
    it found it: it does not call the producer, starts no goroutine, and a
    second [Get] returns the same value.  Also among other goroutines, no
    statement of [Get] calls a producer or changes the value, the period or
    the producer of a cache, the registry, or the world. *)
Theorem Get_returns_value_and_changes_nothing g r cache :
  heap g !! r = Some cache →
  writer (mu cache) = false →
  call zero (Get r) g =
    Some (RVal (value cache),
          [EvRLock (Mu r); EvLoad r (value cache); EvRUnlock (Mu r)], [], g)
  ∧ (∀ rv tr started g1,
       call zero (Get r) g = Some (rv, tr, started, g1) →
       call zero (Get r) g1 = Some (rv, tr, started, g1))
  ∧ (∀ pick p g0 e p' started g1,
       in_Get p = true →
       exec zero pick p g0 = Some (e, p', started, g1) →
       is_invoke e = false ∧ started = []
       ∧ value <$> heap g1 = value <$> heap g0
       ∧ period <$> heap g1 = period <$> heap g0
       ∧ updateFunc <$> heap g1 = updateFunc <$> heap g0
       ∧ globalCaches g1 = globalCaches g0
       ∧ globalCachesMutex g1 = globalCachesMutex g0
       ∧ world g1 = world g0).
Proof.
  intros Hr Hw. split; [eapply Get_returns; eauto|]. split.
  - intros rv tr st g1. erewrite Get_returns by eauto.
    intros [= <- <- <- <-]. eapply Get_returns; eauto.
  - intros pick p g0 e p' st g1 Hp He.
    destruct p; try discriminate; simpl in He;
      destruct (heap g0 !! r0) as [c0|] eqn:Hc; simpl in He; try discriminate.
    + destruct (RLock (mu c0)); simplify_eq/=.
      rewrite !(@fmap_insert_same _ _ _ _ _ c0 _ Hc) by reflexivity. auto 10.
    + simplify_eq/=. auto 10.
    + destruct (RUnlock (mu c0)); simplify_eq/=.
      rewrite !(@fmap_insert_same _ _ _ _ _ c0 _ Hc) by reflexivity. auto 10.
Qed.

(** C10. What [Update] does with the results of the producer depends on
    the value only when the error is nil: with a non-nil error it goes
    where it would go with any other value and error, which is back to the
    caller, and the step that called the producer leaves every cache as it
    was. *)
Theorem Update_discards_value_of_failed_producer r k v e :
  (∀ v' e', Update_64 r k v (Some e) = Update_64 (T:=T) (World:=World) r k v' (Some e'))
  ∧ Update_64 (T:=T) (World:=World) r k v (Some e) = after_Update r k
  ∧ (∀ pick g cache w,
       heap g !! r = Some cache →
       updateFunc cache (world g) = (v, Some e, w) →
       exec zero pick (Update_63 r k) g =
         Some (EvInvoke r k, after_Update r k, [], set_world w g)).
Proof.
  split; [reflexivity|]. split; [reflexivity|].
  intros pick g cache w Hr Hf. erewrite exec_Update_63 by eauto. reflexivity.
Qed.

End Sequential.

(** ** Properties of all goroutines together *)

Lemma sum_insert {A} (f : A → nat) (l : list A) i x y :
  l !! i = Some y → sum_list_with f (<[i := x]> l) + f y = sum_list_with f l + f x.
Proof.
  revert i. induction l as [|a l IH]; intros [|i] Hl; simplify_eq/=; [lia|].
  specialize (IH _ Hl). lia.
Qed.

(** What a step of goroutine [i] does to a sum over the goroutines. *)
Lemma sum_step {A} (f : A → nat) (l : list A) i x y started :
  l !! i = Some y →
  sum_list_with f (<[i := x]> l ++ started) + f y
  = sum_list_with f l + f x + sum_list_with f started.
Proof.
  intros Hl. rewrite sum_list_with_app. pose proof (sum_insert f l i x y Hl). lia.
Qed.

Lemma sum_lookup_le {A} (f : A → nat) (l : list A) i x :
  l !! i = Some x → f x ≤ sum_list_with f l.
Proof. intros Hl. apply sum_list_with_in. eapply list_elem_of_lookup_2, Hl. Qed.

Lemma sum_lookup_le2 {A} (f : A → nat) (l : list A) i j x y :
  i ≠ j → l !! i = Some x → l !! j = Some y → f x + f y ≤ sum_list_with f l.
Proof.
  revert i j. induction l as [|a l IH]; intros [|i] [|j] Hij Hi Hj; simplify_eq/=.
  - pose proof (sum_lookup_le f l j _ Hj). lia.
  - pose proof (sum_lookup_le f l i _ Hi). lia.
  - specialize (IH i j). ospecialize (IH _ Hi Hj); [congruence|]. lia.
Qed.

Lemma sum_le {A} (f h : A → nat) (l : list A) :
  (∀ x, f x ≤ h x) → sum_list_with f l ≤ sum_list_with h l.
Proof. intros Hfh. induction l as [|a l IH]; simpl; [lia|]. specialize (Hfh a). lia. Qed.

Lemma sum_eq_on {A} (f h k : A → nat) (l : list A) :
  (∀ x, k x = 0 → f x = h x) →
  sum_list_with k l = 0 → sum_list_with f l = sum_list_with h l.
Proof.
  intros Hfh. induction l as [|a l IH]; simpl; [done|]. intros Hk.
  rewrite (Hfh a), IH by lia. done.
Qed.

Section Machine.

Context {T World : Type} (zero : T).
Implicit Types (g : shared T World) (s : config T World) (p : pc T World).
Implicit Types (tr : list (event T)) (e : event T) (a : action T World).

Lemma do_Run_inv i pick s tr s' :
  do zero (Run i pick) s = Some (tr, s') →
  ∃ p e p' started g',
    threads s !! i = Some p
    ∧ exec zero pick p (mem s) = Some (e, p', started, g')
    ∧ tr = [e]
    ∧ s' = {| threads := <[i := p']> (threads s) ++ started; mem := g' |}.
Proof.
  unfold do. intros H.
  destruct (threads s !! i) as [p|] eqn:Hp; simpl in H; [|discriminate].
  destruct (exec zero pick p (mem s)) as [[[[e p'] st] g']|] eqn:He;
    simpl in H; [|discriminate].
  simplify_eq. eauto 10.
Qed.

(** Case analysis on the statement a goroutine has run, given
    [He : exec pick p g = Some _]. *)
Ltac exec_cases He :=
  match type of He with exec _ _ ?p _ = _ => destruct p as [ | | | | | | | | | | | | | | | | | | |[|? ?] ?| | | | ] end;
  simpl in He;
  repeat match type of He with
  | context [Lock ?m] => let H := fresh "Hlock" in destruct (Lock m) eqn:H; simpl in He
  | context [Lock_granted ?m] => let H := fresh "Hgrant" in destruct (Lock_granted m) eqn:H; simpl in He
  | context [Unlock ?m] => let H := fresh "Hlock" in destruct (Unlock m) eqn:H; simpl in He
  | context [RLock ?m] => let H := fresh "Hlock" in destruct (RLock m) eqn:H; simpl in He
  | context [RUnlock ?m] => let H := fresh "Hlock" in destruct (RUnlock m) eqn:H; simpl in He
  | context [@lookup _ _ _ _ ?i ?l] => let H := fresh "Hlook" in destruct (l !! i) eqn:H; simpl in He
  | context [updateFunc ?c ?w] => let H := fresh "Hf" in destruct (updateFunc c w) as [[? ?] ?] eqn:H; simpl in He
  | context [ctx_done ?c ?g] => let H := fresh "Hdone" in destruct (ctx_done c g) eqn:H; simpl in He
  | context [timer_fired ?c ?g] => let H := fresh "Hfired" in destruct (timer_fired c g) eqn:H; simpl in He
  | context [match ?x with _ => _ end] => destruct x; simpl in He
  end;
  try discriminate; simplify_eq;
  try match goal with |- context [Update_64 _ ?k _ ?e] => destruct e end;
  try match goal with |- context [Update_64 _ ?k _ _] => destruct k end;
  try match goal with |- context [after_Update _ ?k] => destruct k end;
  cbn [Update_64 after_Update].

(** Replaces the sums over the goroutines after a step of goroutine [i]
    by their value in terms of the sums before it. *)
Ltac account Hi :=
  repeat match goal with
  | |- context [sum_list_with ?f (<[?i := ?p']> ?ths ++ ?st)] =>
      let H := fresh "Hsum" in
      pose proof (sum_step f ths i p' _ st Hi) as H;
      generalize dependent (sum_list_with f (<[i := p']> ths ++ st)); intros
  | |- context [sum_list_with ?f (<[?i := ?p']> ?ths)] =>
      let H := fresh "Hsum" in
      pose proof (sum_insert f ths i p' _ Hi) as H;
      generalize dependent (sum_list_with f (<[i := p']> ths)); intros
  end.

(** *** The invariants hold at start and are kept by every action *)

Lemma lock_inv_init (w : World) : lock_inv (init (T:=T) w).
Proof. split; simpl; done. Qed.

Lemma lock_inv_do a s tr s' :
  lock_inv s → do zero a s = Some (tr, s') → lock_inv s'.
Proof.
  intros [H1 H2 H3] Hdo. destruct a as [i pick|p|c|dt].
  - apply do_Run_inv in Hdo as (p & e & p' & st & g' & Hi & He & -> & ->).
    exec_cases He.
    all: split; simpl; account Hi; simpl in *.
    all: unfold Lock, Lock_granted, Unlock, RLock, RUnlock in *.
    all: repeat case_match; simplify_eq/=; try lia; try done.
    all: intros Hw; try (ospecialize (H3 _); [lia|]); try lia.
  - simpl in Hdo. destruct (entry p) eqn:Hp; simplify_eq.
    split; simpl; rewrite ?sum_list_with_app; simpl;
      destruct p as [ | | | | | | | | | | |? []| | | | | | | | | | | | ];
      simplify_eq/=; try lia; intros Hw; apply H3; lia.
  - simpl in Hdo. simplify_eq. split; simpl; done.
  - simpl in Hdo. case_match; simplify_eq. split; simpl; done.
Qed.

Lemma default_lookup_snoc (l : list nat) n i :
  default 0 ((l ++ [n]) !! i) = if decide (i = length l) then n else default 0 (l !! i).
Proof.
  case_decide as Hi.
  - subst. rewrite list_lookup_middle; done.
  - destruct (decide (i < length l)).
    + rewrite lookup_app_l; done.
    + rewrite !lookup_ge_None_2; [done|lia|]. rewrite length_app. simpl. lia.
Qed.

Lemma default_lookup_insert (l : list nat) j n m i :
  l !! j = Some m →
  default 0 (<[j := n]> l !! i) = if decide (i = j) then n else default 0 (l !! i).
Proof.
  intros Hl. case_decide as Hi.
  - subst. rewrite list_lookup_insert_eq; [done|]. eapply lookup_lt_Some, Hl.
  - rewrite list_lookup_insert_ne; done.
Qed.

(** While [New] is at line 39 no fan-out holds the read lock, so that the
    length of the registry matters to no pending count. *)
Lemma pending_New_39 s i r n m wg :
  lock_inv s → threads s !! i = Some (New_39 r) →
  Σ (pending n wg) (threads s) = Σ (pending m wg) (threads s).
Proof.
  intros [H1 H2 H3] Hi. apply sum_eq_on with (k := in_fanout).
  - intros [] Hx; simplify_eq/=; try done.
  - pose proof (sum_lookup_le in_append _ _ _ Hi) as Hle. simpl in Hle.
    rewrite <- H1. apply H3. lia.
Qed.

Lemma wg_inv_init (w : World) : wg_inv (init (T:=T) w).
Proof. split; intros wg; simpl; try done; try (case_decide; lia). Qed.

Ltac wg_facts :=
  repeat match goal with
  | H : waitGroups ?g !! ?wg = Some ?n |- _ =>
      lazymatch goal with
      | _ : default 0 (waitGroups g !! wg) = n |- _ => fail
      | _ => assert (default 0 (waitGroups g !! wg) = n) by (rewrite H; done);
             pose proof (lookup_lt_Some _ _ _ H)
      end
  end.

Lemma wg_inv_do a s tr s' :
  lock_inv s → wg_inv s → do zero a s = Some (tr, s') → wg_inv s'.
Proof.
  intros Hlock [Hc Ho Hidle] Hdo. destruct a as [i pick|p|c|dt].
  - apply do_Run_inv in Hdo as (p & e & p' & st & g' & Hi & He & -> & ->).
    exec_cases He.
    all: split; intros u; simpl; specialize (Hc u); specialize (Ho u);
      specialize (Hidle u).
    all: unfold counter in *; simpl in *.
    all: rewrite ?default_lookup_snoc;
      try (erewrite default_lookup_insert by eassumption).
    all: rewrite ?length_app, ?length_insert; simpl.
    all: try lazymatch goal with
         | Hi : threads ?s0 !! _ = Some (New_39 _) |- _ =>
             pose proof (pending_New_39 _ _ _
                           (length (globalCaches (mem s0)) + 1)
                           (length (globalCaches (mem s0))) u Hlock Hi)
         end.
    all: wg_facts.
    all: account Hi; simpl in *.
    all: repeat case_decide; simplify_eq/=; try lia.
  - simpl in Hdo. destruct (entry p) eqn:Hp; simplify_eq.
    split; intros u; simpl; specialize (Hc u); specialize (Ho u);
      specialize (Hidle u); unfold counter in *; simpl in *;
      rewrite ?sum_list_with_app; simpl;
      destruct p as [ | | | | | | | | | | |? []| | | | | | | | | | | | ];
      simplify_eq/=; lia.
  - simpl in Hdo. simplify_eq. split; simpl; done.
  - simpl in Hdo. case_match; simplify_eq. split; simpl; done.
Qed.

Lemma invoked_app wg tr tr' : invoked wg (tr ++ tr') = invoked wg tr ++ invoked wg tr'.
Proof. apply bind_app. Qed.

Lemma snapshot_app wg tr tr' : snapshot wg (tr ++ tr') = snapshot wg tr ++ snapshot wg tr'.
Proof. apply bind_app. Qed.

Lemma appended_app tr tr' : appended (tr ++ tr') = appended tr ++ appended tr'.
Proof. apply bind_app. Qed.

Lemma invoked_one wg e : invoked wg [e] = invoked_by wg e.
Proof. apply app_nil_r. Qed.

Lemma snapshot_one wg e : snapshot wg [e] = ranged_by wg e.
Proof. apply app_nil_r. Qed.

Lemma appended_one e : appended [e] = appended_by e.
Proof. apply app_nil_r. Qed.

Lemma occ_app r l l' : occ r (l ++ l') = occ r l + occ r l'.
Proof. apply count_occ_app. Qed.

Lemma occ_nil r : occ r [] = 0.
Proof. done. Qed.

Lemma occ_cons r x l : occ r (x :: l) = (if decide (r = x) then 1 else 0) + occ r l.
Proof.
  unfold occ. simpl. destruct (Nat.eq_dec x r); case_decide; simplify_eq; done.
Qed.

Local Arguments occ : simpl never.

Lemma at_83_le_owner wg (l : list (pc T World)) : Σ (at_83 wg) l ≤ Σ (owner wg) l.
Proof. apply sum_le. intros []; simpl; lia. Qed.

Lemma hist_inv_init (w : World) : hist_inv [] (init (T:=T) w).
Proof. split; intros; simpl; done. Qed.

Lemma hist_inv_do a tr s tr' s' :
  wg_inv s → hist_inv tr s → do zero a s = Some (tr', s') →
  hist_inv (tr ++ tr') s'.
Proof.
  intros [Hc Ho Hidle] [Hinv Hfresh Hrange] Hdo. destruct a as [i pick|p|c|dt].
  - apply do_Run_inv in Hdo as (p & e & p' & st & g' & Hi & He & -> & ->).
    exec_cases He.
    all: split; [intros u x|intros u|intros u];
      specialize (Ho u); specialize (Hfresh u); specialize (Hrange u);
      try specialize (Hinv u x);
      pose proof (at_83_le_owner u (threads s)) as Hle;
      pose proof (sum_lookup_le (owner u) _ _ _ Hi) as Hio;
      rewrite ?invoked_app, ?snapshot_app, ?invoked_one, ?snapshot_one, ?occ_app;
      simpl; rewrite ?length_app, ?length_insert; simpl.
    all: account Hi; simpl in *.
    all: repeat first [case_decide | progress (rewrite ?occ_cons, ?occ_nil in * )
                      | progress simplify_eq/=];
      rewrite ?app_nil_r; try lia.
    all: try (intros; first [exfalso; lia | rewrite Hfresh by lia; done
                            | rewrite Hrange by lia; done]).
  - simpl in Hdo. destruct (entry p) eqn:Hp; simplify_eq. rewrite app_nil_r.
    split; [intros u x|intros u|intros u]; simpl;
      specialize (Hfresh u); specialize (Hrange u); try specialize (Hinv u x);
      rewrite ?sum_list_with_app; simpl;
      destruct p as [ | | | | | | | | | | |? []| | | | | | | | | | | | ];
      simplify_eq/=; repeat case_decide; rewrite ?Nat.add_0_r; try done; lia.
  - simpl in Hdo. simplify_eq. rewrite app_nil_r. split; simpl; done.
  - simpl in Hdo. case_match; simplify_eq. rewrite app_nil_r. split; simpl; done.
Qed.

Lemma loop_inv_init (w : World) : loop_inv (init (T:=T) w).
Proof. intros r. simpl. lia. Qed.

Lemma loop_inv_do a s tr s' :
  loop_inv s → do zero a s = Some (tr, s') → loop_inv s'.
Proof.
  intros Hl Hdo. destruct a as [i pick|p|c|dt].
  - apply do_Run_inv in Hdo as (p & e & p' & st & g' & Hi & He & -> & ->).
    exec_cases He.
    all: intros u; specialize (Hl u); simpl;
      rewrite ?length_app, ?length_insert; simpl.
    all: account Hi; simpl in *.
    all: repeat case_decide; simplify_eq/=; try lia.
  - simpl in Hdo. destruct (entry p) eqn:Hp; simplify_eq.
    intros u; specialize (Hl u); simpl; rewrite ?sum_list_with_app; simpl;
      destruct p as [ | | | | | | | | | | |? []| | | | | | | | | | | | ];
      simplify_eq/=; repeat case_decide; lia.
  - simpl in Hdo. simplify_eq. done.
  - simpl in Hdo. case_match; simplify_eq. done.
Qed.

(** *** Invariants of every execution *)

Lemma inv_init (w : World) : inv [] (init (T:=T) w).
Proof.
  split; [apply lock_inv_init|apply wg_inv_init|apply hist_inv_init|apply loop_inv_init].
Qed.

Lemma inv_do a tr s tr' s' :
  inv tr s → do zero a s = Some (tr', s') → inv (tr ++ tr') s'.
Proof.
  intros [H1 H2 H3 H4] Hdo. split;
    eauto using lock_inv_do, wg_inv_do, hist_inv_do, loop_inv_do.
Qed.

Lemma steps_cons a sched s tr s' :
  steps zero (a :: sched) s = Some (tr, s') →
  ∃ tr1 s1 tr2,
    do zero a s = Some (tr1, s1) ∧ steps zero sched s1 = Some (tr2, s')
    ∧ tr = tr1 ++ tr2.
Proof.
  simpl. intros H.
  destruct (do zero a s) as [[tr1 s1]|]; simpl in H; [|discriminate].
  destruct (steps zero sched s1) as [[tr2 s2]|] eqn:H2; simpl in H; [|discriminate].
  simplify_eq. exists tr1, s1, tr2. done.
Qed.

Lemma steps_app sched1 sched2 s tr1 s1 tr2 s2 :
  steps zero sched1 s = Some (tr1, s1) →
  steps zero sched2 s1 = Some (tr2, s2) →
  steps zero (sched1 ++ sched2) s = Some (tr1 ++ tr2, s2).
Proof.
  revert s tr1. induction sched1 as [|a sched1 IH]; intros s tr1 H1 H2.
  - simpl in H1. simplify_eq. done.
  - apply steps_cons in H1 as (tra & sa & trb & Ha & Hb & ->).
    simpl. rewrite Ha. simpl. rewrite (IH _ _ Hb H2). simpl.
    rewrite app_assoc. done.
Qed.

Lemma inv_steps sched tr s tr' s' :
  inv tr s → steps zero sched s = Some (tr', s') → inv (tr ++ tr') s'.
Proof.
  revert tr s tr'. induction sched as [|a sched IH]; intros tr s tr' Hinv Hs.
  - simpl in Hs. simplify_eq. rewrite app_nil_r. done.
  - apply steps_cons in Hs as (tr1 & s1 & tr2 & Ha & Hb & ->).
    rewrite app_assoc. eapply IH; [|exact Hb]. eapply inv_do; eauto.
Qed.

Lemma inv_reachable w tr s : reachable zero w tr s → inv tr s.
Proof. intros [sched Hs]. apply (inv_steps sched [] (init w)); [apply inv_init|done]. Qed.


(** *** The registry only grows *)

Lemma registry_do a s tr s' :
  do zero a s = Some (tr, s') →
  globalCaches (mem s') = globalCaches (mem s) ++ appended tr.
Proof.
  intros Hdo. destruct a as [i pick|p|c|dt].
  - apply do_Run_inv in Hdo as (p & e & p' & st & g' & Hi & He & -> & ->).
    rewrite appended_one. exec_cases He; simpl; rewrite ?app_nil_r; done.
  - simpl in Hdo. case_match; simplify_eq. simpl. rewrite app_nil_r. done.
  - simpl in Hdo. simplify_eq. simpl. rewrite app_nil_r. done.
  - simpl in Hdo. case_match; simplify_eq. simpl. rewrite app_nil_r. done.
Qed.

Lemma registry_steps sched s tr s' :
  steps zero sched s = Some (tr, s') →
  globalCaches (mem s') = globalCaches (mem s) ++ appended tr.
Proof.
  revert s tr. induction sched as [|a sched IH]; intros s tr Hs.
  - simpl in Hs. simplify_eq. simpl. rewrite app_nil_r. done.
  - apply steps_cons in Hs as (tr1 & s1 & tr2 & Ha & Hb & ->).
    rewrite (IH _ _ Hb), (registry_do _ _ _ _ Ha), appended_app, app_assoc. done.
Qed.

(** C8. Whatever the goroutines do (any number of calls of [New], [Get],
    [Update] and [GlobalCacheUpdate], interleaved in any way, contexts
    cancelled and time passing), the registry afterwards is the registry
    before followed by the caches appended by the [New]s in between, in the
    order of their appends: an entry keeps its position, and a cache once
    appended stays. *)
Theorem registry_only_grows sched s tr s' :
  steps zero sched s = Some (tr, s') →
  globalCaches (mem s') = globalCaches (mem s) ++ appended tr
  ∧ (∀ i r, globalCaches (mem s) !! i = Some r → globalCaches (mem s') !! i = Some r)
  ∧ (∀ r, r ∈ appended tr → r ∈ globalCaches (mem s'))
  ∧ length (globalCaches (mem s)) ≤ length (globalCaches (mem s')).
Proof.
  intros Hs. pose proof (registry_steps _ _ _ _ Hs) as Heq. rewrite Heq.
  split; [done|]. split; [|split].
  - intros i r Hi. apply lookup_app_l_Some. done.
  - intros r Hr. apply elem_of_app. auto.
  - rewrite length_app. lia.
Qed.

(** *** The fan-out and the lock of the registry *)

Lemma owner_le_in_fanout wg (l : list (pc T World)) : Σ (owner wg) l ≤ Σ in_fanout l.
Proof. apply sum_le. intros []; simpl; try case_decide; lia. Qed.

(** A goroutine of a fan-out runs while the fan-out holds the read lock. *)
Lemma live_under_lock tr s i p wg :
  inv tr s → threads s !! i = Some p → 0 < live wg p →
  0 < readers (globalCachesMutex (mem s)).
Proof.
  intros [[H1 _ _] [Hc _ Hidle] _ _] Hi Hp.
  pose proof (sum_lookup_le (live wg) _ _ _ Hi).
  pose proof (owner_le_in_fanout wg (threads s)).
  specialize (Hc wg). specialize (Hidle wg). lia.
Qed.

(** C6, as the code has it.  [GlobalCacheUpdate] holds the read lock of the
    registry from its first statement to its return: whenever a goroutine
    of a fan-out is started, calls the producer of its entry, stores the
    result or runs [wg.Done()], and whenever the [Wait] of a fan-out
    returns, the lock is held; the step that releases it is the last of
    [GlobalCacheUpdate]. *)
Theorem fanout_runs_under_read_lock w tr s i pick e s' :
  reachable zero w tr s →
  do zero (Run i pick) s = Some ([e], s') →
  (of_fanout e = true → 0 < readers (globalCachesMutex (mem s)))
  ∧ (e = EvRUnlock Registry → threads s' !! i = Some (Returned RUnit)).
Proof.
  intros Hr Hdo. apply inv_reachable in Hr as Hinv.
  apply do_Run_inv in Hdo as (p & e' & p' & st & g' & Hi & He & [= <-] & ->).
  pose proof (lookup_lt_Some _ _ _ Hi) as Hlt. split.
  - intros Hev.
    assert (0 < in_fanout p ∨ ∃ wg, 0 < live wg p) as [Hp|[wg Hp]].
    { exec_cases He; simplify_eq/=; try (left; lia); right;
        repeat match goal with k : caller |- _ => destruct k; try discriminate end;
        simpl;
        match goal with
        | |- ∃ _, 0 < (if decide (_ = ?wg) then _ else _) => exists wg
        end; rewrite decide_True by done; lia. }
    + destruct Hinv as [[H1 _ _] _ _ _].
      pose proof (sum_lookup_le in_fanout _ _ _ Hi). lia.
    + eapply live_under_lock; eauto.
  - intros ->. exec_cases He; simplify_eq/=.
    rewrite app_nil_r, list_lookup_insert_eq; done.
Qed.

(** *** One fan-out, from [RLock] to the return *)

Lemma lookup_other_thread (l : list (pc T World)) i t p' started p :
  i ≠ t → l !! t = Some p → (<[i := p']> l ++ started) !! t = Some p.
Proof.
  intros Hit Ht. apply lookup_app_l_Some. rewrite list_lookup_insert_ne; done.
Qed.

Lemma lookup_this_thread (l : list (pc T World)) i p' started p :
  l !! i = Some p → (<[i := p']> l ++ started) !! i = Some p'.
Proof.
  intros Hi. apply lookup_app_l_Some, list_lookup_insert_eq.
  eapply lookup_lt_Some, Hi.
Qed.







(** A step of the goroutine at position [length pre] that starts no goroutine. *)
Lemma do_Run_middle (pre post : list (pc T World)) p g e p' g' :
  exec zero true p g = Some (e, p', [], g') →
  do zero (Run (length pre) true) {| threads := pre ++ p :: post; mem := g |}
  = Some ([e], {| threads := pre ++ p' :: post; mem := g' |}).
Proof.
  intros He. unfold do. simpl. rewrite list_lookup_middle by done. simpl.
  rewrite He. simpl. rewrite app_nil_r, insert_app_r_alt, Nat.sub_diag by done.
  done.
Qed.

Lemma steps_do a sched s tr1 s1 tr2 s2 :
  do zero a s = Some (tr1, s1) → steps zero sched s1 = Some (tr2, s2) →
  steps zero (a :: sched) s = Some (tr1 ++ tr2, s2).
Proof. intros Ha Hs. simpl. rewrite Ha. simpl. rewrite Hs. done. Qed.



(** A step of goroutine [t] that starts no goroutine. *)
Lemma do_Run_at (ths : list (pc T World)) t p g e p' g' :
  ths !! t = Some p →
  exec zero true p g = Some (e, p', [], g') →
  do zero (Run t true) {| threads := ths; mem := g |}
  = Some ([e], {| threads := <[t := p']> ths; mem := g' |}).
Proof.
  intros Ht He. unfold do. simpl. rewrite Ht. simpl. rewrite He. simpl.
  rewrite app_nil_r. done.
Qed.



(** *** What a run does to the caches and to the world *)

Lemma configuration_do a s tr s' r cache :
  do zero a s = Some (tr, s') → heap (mem s) !! r = Some cache →
  ∃ cache', heap (mem s') !! r = Some cache'
    ∧ period cache' = period cache ∧ updateFunc cache' = updateFunc cache.
Proof.
  intros Hdo Hl. destruct a as [i pick|p|c|dt].
  - apply do_Run_inv in Hdo as (p & e & p' & st & g' & Hi & He & -> & ->).
    exec_cases He; simpl; eauto.
    all: try (exists cache; split; [apply lookup_app_l_Some; done|done]).
    all: match goal with
         | H : heap ?g0 !! ?r' = Some ?c |- context [<[?r' := ?c']> _] =>
             destruct (decide (r = r')) as [->|Hne];
             [ exists c'; split;
               [apply list_lookup_insert_eq; eapply lookup_lt_Some, H
               |simplify_eq; done]
             | exists cache; split; [rewrite list_lookup_insert_ne; done|done] ]
         end.
  - simpl in Hdo. destruct (entry p); simplify_eq. eauto.
  - simpl in Hdo. simplify_eq. eauto.
  - simpl in Hdo. case_match; simplify_eq. eauto.
Qed.

Lemma configuration_steps sched s tr s' r cache :
  steps zero sched s = Some (tr, s') →
  heap (mem s) !! r = Some cache →
  ∃ cache', heap (mem s') !! r = Some cache'
    ∧ period cache' = period cache ∧ updateFunc cache' = updateFunc cache.
Proof.
  revert s tr cache. induction sched as [|a sched IH]; intros s tr cache Hs Hl.
  - simpl in Hs. simplify_eq. eauto.
  - apply steps_cons in Hs as (tr1 & s1 & tr2 & Ha & Hb & ->).
    destruct (configuration_do _ _ _ _ _ _ Ha Hl) as (c1 & Hl1 & Hp1 & Hf1).
    destruct (IH _ _ _ Hb Hl1) as (c2 & Hl2 & Hp2 & Hf2).
    exists c2. split_and!; [done|congruence..].
Qed.








(** *** After the background loop has returned *)

Lemma loop_gone_do r a s tr s' :
  loop_gone r s → do zero a s = Some (tr, s') →
  loop_gone r s' ∧ Forall (λ e, automatic r e = false) tr.
Proof.
  intros [Hl Hr] Hdo. destruct a as [i pick|p|c|dt].
  - apply do_Run_inv in Hdo as (p & e & p' & st & g' & Hi & He & -> & ->).
    pose proof (sum_lookup_le (looper r) _ _ _ Hi) as Hle.
    unfold loop_gone. rewrite Forall_singleton.
    exec_cases He; simpl in *; rewrite ?length_app, ?length_insert; simpl.
    all: account Hi; simpl in *.
    all: repeat first [case_decide | case_bool_decide | progress simplify_eq/=];
      repeat split; try done; try lia.
    all: destruct k; simpl in *; try done; lia.
  - simpl in Hdo. destruct (entry p) eqn:Hp; simplify_eq.
    split; [|constructor]. split; [|done]. simpl.
    rewrite sum_list_with_app, Hl. simpl.
    destruct p as [ | | | | | | | | | | |? []| | | | | | | | | | | | ]; simplify_eq/=;
      repeat case_decide; done.
  - simpl in Hdo. simplify_eq. split; [done|constructor].
  - simpl in Hdo. case_match; simplify_eq. split; [done|constructor].
Qed.

Lemma loop_gone_steps r sched s tr s' :
  loop_gone r s → steps zero sched s = Some (tr, s') →
  loop_gone r s' ∧ Forall (λ e, automatic r e = false) tr.
Proof.
  revert s tr. induction sched as [|a sched IH]; intros s tr Hg Hs.
  - simpl in Hs. simplify_eq. split; [done|constructor].
  - apply steps_cons in Hs as (tr1 & s1 & tr2 & Ha & Hb & ->).
    destruct (loop_gone_do _ _ _ _ _ Hg Ha) as [Hg1 Hf1].
    destruct (IH _ _ Hg1 Hb) as [Hg2 Hf2].
    split; [done|]. apply Forall_app. done.
Qed.

(** A goroutine that has returned takes no step. *)
Lemma returned_stays t rv sched s tr s' :
  threads s !! t = Some (Returned rv) →
  steps zero sched s = Some (tr, s') →
  threads s' !! t = Some (Returned rv).
Proof.
  revert s tr. induction sched as [|a sched IH]; intros s tr Ht Hs.
  - simpl in Hs. simplify_eq. done.
  - apply steps_cons in Hs as (tr1 & s1 & tr2 & Ha & Hb & ->).
    eapply IH; [|exact Hb]. destruct a as [i pick|p|c|dt].
    + apply do_Run_inv in Ha as (p & e & p' & st & g' & Hi & He & -> & ->).
      simpl. destruct (decide (i = t)) as [->|Hit].
      * rewrite Ht in Hi. injection Hi as <-. simpl in He. discriminate.
      * apply lookup_other_thread; done.
    + simpl in Ha. case_match; simplify_eq. simpl. apply lookup_app_l_Some. done.
    + simpl in Ha. simplify_eq. done.
    + simpl in Ha. case_match; simplify_eq. done.
Qed.

(** The stored value of a cache changes only at line 69. *)
Lemma value_changes_by_store r a s tr s' :
  do zero a s = Some (tr, s') →
  r < length (heap (mem s)) →
  value <$> heap (mem s') !! r = value <$> heap (mem s) !! r
  ∨ ∃ v k, tr = [EvStore r v k].
Proof.
  intros Hdo Hr. destruct a as [i pick|p|c|dt].
  - apply do_Run_inv in Hdo as (p & e & p' & st & g' & Hi & He & -> & ->).
    exec_cases He; simpl; try (left; done).
    all: try (left; rewrite lookup_app_l by done; done).
    all: destruct (decide (r = r0)) as [->|Hne];
      [|left; rewrite list_lookup_insert_ne by done; done].
    all: try (right; eauto; fail).
    all: left; rewrite list_lookup_insert_eq by done; simpl;
      rewrite Hlook; done.
  - simpl in Hdo. case_match; simplify_eq. left. done.
  - simpl in Hdo. simplify_eq. left. done.
  - simpl in Hdo. case_match; simplify_eq. left. done.
Qed.

(** When the context is cancelled and the timer has fired, [select] may
    take either case. *)
Lemma select_may_tick_when_cancelled pick r c deadline g :
  ctx_done c g = true → timer_fired deadline g = true →
  exec zero pick (updateLoop_47 r c deadline) g =
    if pick
    then Some (EvCtxDone r c, Returned RUnit, [], g)
    else Some (EvTick r, Update_63 r (FromLoop c), [], g).
Proof. intros Hd Hf. simpl. rewrite Hd, Hf. done. Qed.

(** C7, as the code has it.  The background loop of a cache leaves its
    [select] by the [Done] case only when the context is cancelled, and
    must leave by it when the context is cancelled and the timer has not
    yet fired.  Once it has left, whatever time passes and whatever the
    goroutines do, no producer is called and no value is stored by a
    background loop of this cache, and a change of its stored value is a
    store of an [Update] called by a client or a fan-out.  A client's
    [Update] still stores what the producer returns. *)
Theorem loop_returns_on_cancellation w tr s i r c deadline :
  reachable zero w tr s →
  threads s !! i = Some (updateLoop_47 r c deadline) →
  (∀ pick s1,
     do zero (Run i pick) s = Some ([EvCtxDone r c], s1) →
     c ∈ cancelled (mem s)
     ∧ ∀ sched tr2 s2,
         steps zero sched s1 = Some (tr2, s2) →
         threads s2 !! i = Some (Returned RUnit)
         ∧ Forall (λ e, automatic r e = false) tr2
         ∧ ∀ a tr3 s3,
             do zero a s2 = Some (tr3, s3) →
             value <$> heap (mem s3) !! r ≠ value <$> heap (mem s2) !! r →
             ∃ v k, tr3 = [EvStore r v k] ∧ automatic r (EvStore r v k) = false)
  ∧ (c ∈ cancelled (mem s) → (now (mem s) < deadline)%Z →
     ∀ pick, ∃ s1, do zero (Run i pick) s = Some ([EvCtxDone r c], s1))
  ∧ (∀ g cache v w',
       c ∈ cancelled g →
       heap g !! r = Some cache → mu cache = unlocked →
       updateFunc cache (world g) = (v, None, w') →
       ∃ tr' g',
         call zero (Update r) g = Some (RUnit, tr', [], g')
         ∧ value <$> heap g' !! r = Some v).
Proof.
  intros Hr Hi. apply inv_reachable in Hr as Hinv.
  pose proof (inv_loop _ _ Hinv r) as Hloop.
  pose proof (sum_lookup_le (looper r) _ _ _ Hi) as Hle. simpl in Hle.
  rewrite decide_True in Hle by done.
  split; [|split].
  - intros pick s1 Hdo.
    apply do_Run_inv in Hdo as (p & e & p' & st & g' & Hi' & He & [= <-] & ->).
    rewrite Hi in Hi'. injection Hi' as <-. simpl in He.
    assert (ctx_done c (mem s) = true ∧ p' = Returned RUnit ∧ st = [] ∧ g' = mem s)
      as (Hd & -> & -> & ->).
    { destruct (ctx_done c (mem s)), (timer_fired deadline (mem s)), pick;
        simplify_eq/=; try done. }
    split; [apply bool_decide_eq_true in Hd; done|].
    assert (loop_gone r {| threads := <[i := Returned RUnit]> (threads s) ++ [];
                           mem := mem s |}) as Hgone.
    { split; simpl; [|case_decide; lia].
      pose proof (sum_step (looper r) _ _ (Returned RUnit) _ [] Hi) as Hs.
      simpl in Hs. rewrite decide_True in Hs by done. case_decide; lia. }
    intros sched tr2 s2 Hs.
    destruct (loop_gone_steps _ _ _ _ _ Hgone Hs) as [Hgone2 Hauto].
    split; [|split; [done|]].
    + eapply returned_stays; [|exact Hs]. simpl.
      eapply lookup_this_thread. exact Hi.
    + intros a tr3 s3 Ha Hne.
      destruct (value_changes_by_store r _ _ _ _ Ha (proj2 Hgone2)) as [?|(v & k & ->)];
        [done|].
      exists v, k. split; [done|].
      destruct (loop_gone_do _ _ _ _ _ Hgone2 Ha) as [_ Hf].
      apply Forall_inv in Hf. exact Hf.
  - intros Hc Hnow pick. eexists. unfold do. rewrite Hi. simpl.
    unfold ctx_done, timer_fired. rewrite bool_decide_eq_true_2 by done.
    rewrite (proj2 (Z.leb_gt _ _)) by done. simpl. reflexivity.
  - intros g cache v w' _ Hc Hmu Hf. do 2 eexists.
    split; [eapply Update_succeeds; eauto|]. simpl.
    rewrite list_lookup_insert_eq by (eapply lookup_lt_Some; eauto). done.
Qed.


(** *** The locks of the caches *)

Lemma mu_of_lookup g r cache : heap g !! r = Some cache → mu_of g r = mu cache.
Proof. intros Hl. unfold mu_of. rewrite Hl. done. Qed.

Lemma mu_of_snoc (h : list (reCached T World)) cache r :
  default unlocked (mu <$> (h ++ [cache]) !! r) =
    if decide (r = length h) then mu cache else default unlocked (mu <$> h !! r).
Proof.
  case_decide as Hr.
  - subst. rewrite list_lookup_middle; done.
  - destruct (decide (r < length h)).
    + rewrite lookup_app_l; done.
    + rewrite !lookup_ge_None_2; [done|lia|]. rewrite length_app. simpl. lia.
Qed.

Lemma mu_of_insert (h : list (reCached T World)) r' cache cache' r :
  h !! r' = Some cache →
  default unlocked (mu <$> <[r' := cache']> h !! r) =
    if decide (r = r') then mu cache' else default unlocked (mu <$> h !! r).
Proof.
  intros Hl. case_decide as Hr.
  - subst. rewrite list_lookup_insert_eq; [done|]. eapply lookup_lt_Some, Hl.
  - rewrite list_lookup_insert_ne; done.
Qed.

Lemma cache_lock_inv_init (w : World) : cache_lock_inv (init (T:=T) w).
Proof. split; intros r; simpl; done. Qed.

Ltac mu_facts :=
  repeat match goal with
  | H : heap ?g !! ?r = Some ?c, H' : context [heap ?g !! ?r] |- _ =>
      lazymatch H' with H => fail | _ => rewrite H in H'; simpl in H' end
  end;
  repeat match goal with
  | H : heap ?g !! ?r = Some ?c |- context [heap ?g !! ?r] => rewrite H; simpl
  end;
  repeat match goal with
  | H : context [heap ?g !! length (heap ?g)] |- _ =>
      rewrite (lookup_ge_None_2 (heap g) (length (heap g))) in H by lia;
      simpl in H
  end.

Lemma cache_lock_inv_do a s tr s' :
  cache_lock_inv s → do zero a s = Some (tr, s') → cache_lock_inv s'.
Proof.
  intros [H1 H2 H3] Hdo. destruct a as [i pick|p|c|dt].
  - apply do_Run_inv in Hdo as (p & e & p' & st & g' & Hi & He & -> & ->).
    exec_cases He.
    all: split; intros u; simpl; specialize (H1 u); specialize (H2 u);
      specialize (H3 u); unfold mu_of in *; simpl in *.
    all: rewrite ?mu_of_snoc; try (erewrite mu_of_insert by eassumption).
    all: account Hi; simpl in *.
    all: repeat first [case_decide | progress simplify_eq/=].
    all: mu_facts.
    all: unfold Lock, Lock_granted, Unlock, RLock, RUnlock in *.
    all: repeat first [case_match | progress simplify_eq/=];
      try lia; try done.
    all: intros Hw; try (ospecialize (H3 _); [lia|]); try lia.
  - simpl in Hdo. destruct (entry p) eqn:Hp; simplify_eq.
    split; intros u; simpl; specialize (H1 u); specialize (H2 u);
      specialize (H3 u); rewrite ?sum_list_with_app; simpl;
      destruct p as [ | | | | | | | | | | |? []| | | | | | | | | | | | ];
      simplify_eq/=; try lia; intros Hw; apply H3; lia.
  - simpl in Hdo. simplify_eq. split; simpl; done.
  - simpl in Hdo. case_match; simplify_eq. split; simpl; done.
Qed.


Lemma cache_lock_inv_steps sched s tr s' :
  cache_lock_inv s → steps zero sched s = Some (tr, s') → cache_lock_inv s'.
Proof.
  revert s tr. induction sched as [|a sched IH]; intros s tr Hinv Hs.
  - simpl in Hs. simplify_eq. done.
  - apply steps_cons in Hs as (tr1 & s1 & tr2 & Ha & Hb & ->).
    eapply IH; [|exact Hb]. eapply cache_lock_inv_do; eauto.
Qed.

Lemma cache_lock_inv_reachable w tr s : reachable zero w tr s → cache_lock_inv s.
Proof.
  intros [sched Hs]. eapply cache_lock_inv_steps; [apply cache_lock_inv_init|exact Hs].
Qed.

(** X1. The stored value of a cache is accessed under its lock, in every
    interleaving: when a goroutine stores at line 69 it holds the write
    lock, it is the only goroutine between [Lock] and [Unlock] of this
    cache and no [Get] is between [RLock] and [RUnlock]; when a [Get] reads
    at line 59 it holds the read lock, no writer holds the lock (one may
    wait for it inside [Lock]), no [Update] is between [Lock] and
    [Unlock], and it reads the stored value. *)
Theorem value_is_accessed_under_lock w tr s i pick e s' :
  reachable zero w tr s →
  do zero (Run i pick) s = Some ([e], s') →
  (∀ r v k, e = EvStore r v k →
     threads s !! i = Some (Update_69 r v k)
     ∧ writer (mu_of (mem s) r) = true
     ∧ readers (mu_of (mem s) r) = 0
     ∧ Σ (writing r) (threads s) = 1
     ∧ Σ (reading r) (threads s) = 0)
  ∧ (∀ r v, e = EvLoad r v →
     threads s !! i = Some (Get_59 r)
     ∧ write_locked (mu_of (mem s) r) = false
     ∧ 0 < readers (mu_of (mem s) r)
     ∧ Σ (writing r) (threads s) = 0
     ∧ value <$> heap (mem s) !! r = Some v).
Proof.
  intros Hr Hdo. apply cache_lock_inv_reachable in Hr as [H1 H2 H3].
  apply do_Run_inv in Hdo as (p & e' & p' & st & g' & Hi & He & [= <-] & ->).
  split.
  - intros r v k ->. specialize (H1 r). specialize (H2 r). specialize (H3 r).
    pose proof (sum_lookup_le (writing r) _ _ _ Hi) as Hle.
    exec_cases He; simplify_eq/=. rewrite decide_True in Hle by done.
    ospecialize (H3 _); [lia|].
    destruct (writer (mu_of (mem s) r)); simpl in *; [|lia].
    split_and!; [done|done|done|lia|lia].
  - intros r v ->. specialize (H1 r). specialize (H2 r). specialize (H3 r).
    pose proof (sum_lookup_le (reading r) _ _ _ Hi) as Hle.
    exec_cases He; simplify_eq/=. rewrite decide_True in Hle by done.
    rewrite Hlook. simpl.
    assert (Σ (writing r) (threads s) = 0) as Hw.
    { destruct (decide (0 < Σ (writing r) (threads s))) as [Hp|Hp]; [|lia].
      specialize (H3 Hp). lia. }
    split_and!; [done| |lia|done|done].
    unfold write_locked, Lock_granted.
    destruct (readers (mu_of (mem s) r)); [lia|]. apply andb_false_r.
Qed.

Lemma release_steps tr s i p pick :
  inv tr s → cache_lock_inv s →
  threads s !! i = Some p →
  releasing p = true →
  is_Some (exec zero pick p (mem s)).
Proof.
  intros [[L1 L2 L3] [Hc _ _] _ _] [C1 C2 C3] Hi Hp.
  destruct p; try discriminate; simpl.
  - pose proof (sum_lookup_le in_append _ _ _ Hi) as Hle. simpl in Hle.
    unfold Unlock. destruct (writer (globalCachesMutex (mem s))); simpl in *;
      [eauto|lia].
  - pose proof (sum_lookup_le (reading r) _ _ _ Hi) as Hle. simpl in Hle.
    rewrite decide_True in Hle by done. specialize (C1 r). unfold mu_of in C1.
    destruct (heap (mem s) !! r) as [cache|]; simpl in *; [|lia].
    unfold RUnlock. destruct (readers (mu cache)); simpl; [lia|eauto].
  - pose proof (sum_lookup_le (writing r) _ _ _ Hi) as Hle. simpl in Hle.
    rewrite decide_True in Hle by done. specialize (C2 r). unfold mu_of in C2.
    destruct (heap (mem s) !! r) as [cache|]; simpl in *; [|lia].
    unfold Unlock. destruct (writer (mu cache)); simpl in *; [eauto|lia].
  - pose proof (sum_lookup_le in_fanout _ _ _ Hi) as Hle. simpl in Hle.
    unfold RUnlock. destruct (readers (globalCachesMutex (mem s))); simpl;
      [lia|eauto].
  - pose proof (sum_lookup_le (live wg) _ _ _ Hi) as Hle. simpl in Hle.
    rewrite decide_True in Hle by done. specialize (Hc wg). unfold counter in Hc.
    destruct (waitGroups (mem s) !! wg) as [[|n]|]; simpl in *; try lia. eauto.
Qed.

(** X2. No goroutine unlocks a lock it does not hold, and no counter of a
    wait group goes below zero: in every reachable state the [Unlock] of
    [New], the deferred [RUnlock]s of [Get] and [GlobalCacheUpdate], the
    [Unlock] of [Update] and the deferred [wg.Done()] can run. *)
Theorem releases_never_fail w tr s i p pick :
  reachable zero w tr s →
  threads s !! i = Some p →
  releasing p = true →
  is_Some (exec zero pick p (mem s)).
Proof.
  intros Hr. apply (release_steps tr).
  - exact (inv_reachable _ _ _ Hr).
  - exact (cache_lock_inv_reachable _ _ _ Hr).
Qed.

(** *** The registry and the constructors *)

Lemma registry_inv_init (w : World) : registry_inv (init (T:=T) w).
Proof. split; intros r; simpl; done. Qed.

Lemma registry_inv_do a s tr s' :
  registry_inv s → do zero a s = Some (tr, s') → registry_inv s'.
Proof.
  intros [H1 H2] Hdo. destruct a as [i pick|p|c|dt].
  - apply do_Run_inv in Hdo as (p & e & p' & st & g' & Hi & He & -> & ->).
    exec_cases He.
    all: split; intros u; simpl; specialize (H1 u); specialize (H2 u);
      rewrite ?length_app, ?length_insert, ?occ_app, ?occ_cons, ?occ_nil; simpl.
    all: account Hi; simpl in *.
    all: repeat first [case_decide | progress simplify_eq/=]; try lia.
  - simpl in Hdo. destruct (entry p) eqn:Hp; simplify_eq.
    split; intros u; simpl; specialize (H1 u); specialize (H2 u);
      rewrite ?sum_list_with_app; simpl;
      destruct p as [ | | | | | | | | | | |? []| | | | | | | | | | | | ];
      simplify_eq/=; repeat case_decide; lia.
  - simpl in Hdo. simplify_eq. split; simpl; done.
  - simpl in Hdo. case_match; simplify_eq. split; simpl; done.
Qed.

Lemma registry_inv_reachable w tr s : reachable zero w tr s → registry_inv s.
Proof.
  intros [sched Hs]. pose proof (registry_inv_init w) as Hinit.
  revert Hs Hinit. generalize (init (T:=T) w). revert tr.
  induction sched as [|a sched IH]; intros tr s0 Hs Hinv.
  - simpl in Hs. simplify_eq. done.
  - apply steps_cons in Hs as (tr1 & s1 & tr2 & Ha & Hb & ->).
    eapply IH; [exact Hb|]. eapply registry_inv_do; eauto.
Qed.

Lemma occ_elem_of r (l : list nat) : r ∈ l ↔ 0 < occ r l.
Proof. rewrite list_elem_of_In. apply (count_occ_In Nat.eq_dec). Qed.

(** X3. In every reachable state the registry holds no cache twice and
    only caches that exist; the cache a [New] has returned is in it; and a
    cache that exists and is not in it has a [New] that is still on its way
    to appending it. *)
Theorem registry_is_well_formed w tr s :
  reachable zero w tr s →
  NoDup (globalCaches (mem s))
  ∧ (∀ r, r ∈ globalCaches (mem s) → is_Some (heap (mem s) !! r))
  ∧ (∀ i r, threads s !! i = Some (Returned (RCache r)) →
            r ∈ globalCaches (mem s))
  ∧ (∀ r, is_Some (heap (mem s) !! r) →
          r ∈ globalCaches (mem s) ∨ 0 < Σ (registering r) (threads s)).
Proof.
  intros Hr. apply registry_inv_reachable in Hr as [H1 H2]. split_and!.
  - apply NoDup_ListNoDup, (NoDup_count_occ Nat.eq_dec). intros r.
    specialize (H1 r). specialize (H2 r). unfold occ in H1. case_decide; lia.
  - intros r Hin. apply occ_elem_of in Hin. apply lookup_lt_is_Some.
    specialize (H1 r). specialize (H2 r). case_decide; lia.
  - intros i r Hi. apply occ_elem_of.
    pose proof (sum_lookup_le (registered r) _ _ _ Hi) as Hle. simpl in Hle.
    rewrite decide_True in Hle by done. specialize (H1 r). lia.
  - intros r Hin. apply lookup_lt_is_Some in Hin. rewrite occ_elem_of.
    specialize (H1 r). specialize (H2 r). case_decide; lia.
Qed.

(** *** The life of the background loop *)

Lemma loop_life_inv_init (w : World) : loop_life_inv [] (init (T:=T) w).
Proof. intros r. simpl. done. Qed.

Lemma loop_life_inv_do a tr s tr' s' :
  loop_life_inv tr s → do zero a s = Some (tr', s') → loop_life_inv (tr ++ tr') s'.
Proof.
  intros Hl Hdo. destruct a as [i pick|p|c|dt].
  - apply do_Run_inv in Hdo as (p & e & p' & st & g' & Hi & He & -> & ->).
    exec_cases He.
    all: intros u; specialize (Hl u); simpl;
      rewrite ?sum_list_with_app, ?length_app, ?length_insert; simpl.
    all: account Hi; simpl in *.
    all: repeat first [case_decide | progress simplify_eq/=]; try lia.
  - simpl in Hdo. destruct (entry p) eqn:Hp; simplify_eq. rewrite app_nil_r.
    intros u; specialize (Hl u); simpl; rewrite ?sum_list_with_app; simpl;
      destruct p as [ | | | | | | | | | | |? []| | | | | | | | | | | | ];
      simplify_eq/=; repeat case_decide; lia.
  - simpl in Hdo. simplify_eq. rewrite app_nil_r. done.
  - simpl in Hdo. case_match; simplify_eq. rewrite app_nil_r. done.
Qed.

Lemma loop_life_inv_steps sched tr s tr' s' :
  loop_life_inv tr s → steps zero sched s = Some (tr', s') →
  loop_life_inv (tr ++ tr') s'.
Proof.
  revert tr s tr'. induction sched as [|a sched IH]; intros tr s tr' Hinv Hs.
  - simpl in Hs. simplify_eq. rewrite app_nil_r. done.
  - apply steps_cons in Hs as (tr1 & s1 & tr2 & Ha & Hb & ->).
    rewrite app_assoc. eapply IH; [|exact Hb]. eapply loop_life_inv_do; eauto.
Qed.

(** X4. Every cache has exactly one background loop for as long as the
    loop has not taken the [Done] case of its [select]: in every reachable
    state, for every cache, either one goroutine is its loop (or the [New]
    that is about to start it) and the loop has never returned, or no
    goroutine is and the loop has returned once. *)
Theorem one_loop_per_cache w tr s r :
  reachable zero w tr s →
  is_Some (heap (mem s) !! r) →
  (Σ (looper r) (threads s) = 1 ∧ Σ (loop_exit r) tr = 0)
  ∨ (Σ (looper r) (threads s) = 0 ∧ Σ (loop_exit r) tr = 1).
Proof.
  intros [sched Hs] Hin. apply lookup_lt_is_Some in Hin.
  pose proof (loop_life_inv_steps sched [] _ _ _ (loop_life_inv_init w) Hs r) as Hl.
  simpl in Hl. case_decide; lia.
Qed.

(** *** What a cache is made of *)

(** X5. A cache is never freed and its period and its producer never
    change: whatever the goroutines do, a cache that exists still exists
    afterwards, with the period and the producer it was constructed with. *)
Theorem period_and_producer_never_change sched s tr s' r cache :
  steps zero sched s = Some (tr, s') →
  heap (mem s) !! r = Some cache →
  ∃ cache', heap (mem s') !! r = Some cache'
    ∧ period cache' = period cache ∧ updateFunc cache' = updateFunc cache.
Proof.
  intros Hs Hl.
  destruct (configuration_steps _ _ _ _ _ _ Hs Hl) as (cache' & Hl' & Hp & Hf).
  exists cache'. done.
Qed.

(** *** Who waits for whom *)

(** X6. The lock of the registry makes [New] wait for every running
    [GlobalCacheUpdate], and the other way round.  In a reachable state
    [Lock] at line 38 can be called exactly when no other [New] is between
    its call of [Lock] and its [Unlock]; the goroutine then has the lock at
    once when no [GlobalCacheUpdate] is between its [RLock] and its
    deferred [RUnlock], and waits inside [Lock] otherwise, until all of
    them have released the lock.  The [RLock] of line 75 can be taken
    exactly when no [New] holds the write lock or waits for it inside
    [Lock], other fan-outs notwithstanding. *)
Theorem registry_lock_waits w tr s i pick :
  reachable zero w tr s →
  (∀ r, threads s !! i = Some (New_38 r) →
     (is_Some (do zero (Run i pick) s)
      ↔ Σ in_Lock_38 (threads s) = 0 ∧ Σ in_append (threads s) = 0)
     ∧ (∀ tr' s', do zero (Run i pick) s = Some (tr', s') →
          tr' = if decide (Σ in_fanout (threads s) = 0)
                then [EvLock Registry] else [EvLockWait Registry]))
  ∧ (∀ r, threads s !! i = Some (New_38_wait r) →
     (is_Some (do zero (Run i pick) s) ↔ Σ in_fanout (threads s) = 0))
  ∧ (threads s !! i = Some GlobalCacheUpdate_75 →
     (is_Some (do zero (Run i pick) s)
      ↔ Σ in_Lock_38 (threads s) = 0 ∧ Σ in_append (threads s) = 0)).
Proof.
  intros Hr. apply inv_reachable in Hr as [[H1 H2 H3] _ _ _].
  split_and!; [intros r Hi; split; [|intros tr' s']|intros r Hi|intros Hi];
    unfold do; rewrite Hi; simpl; unfold Lock, Lock_granted, RLock;
    destruct (globalCachesMutex (mem s)) as [[] [|n]]; simpl in *;
    try case_decide; try (intros; simplify_eq/=; done || lia);
    (split; [intros [? ?]; simplify_eq/=; try lia|intros ?; try lia; eauto]).
Qed.

(** X7. The lock of a cache makes [Update] wait for the readers and the
    readers for a writer.  In a reachable state [Lock] at line 68 can be
    called exactly when no other [Update] of this cache is between its
    call of [Lock] and its [Unlock]; the goroutine then has the lock at
    once when no [Get] is between [RLock] and [RUnlock], and waits inside
    [Lock] otherwise, until the readers have left.  The [RLock] of line 57
    can be taken exactly when no [Update] holds the write lock or waits
    for it inside [Lock], other readers notwithstanding.  No goroutine
    waits for a lock during the call of the producer. *)
Theorem cache_lock_waits w tr s i pick r :
  reachable zero w tr s →
  is_Some (heap (mem s) !! r) →
  (∀ v k, threads s !! i = Some (Update_68 r v k) →
     (is_Some (do zero (Run i pick) s)
      ↔ Σ (in_Lock_68 r) (threads s) = 0 ∧ Σ (writing r) (threads s) = 0)
     ∧ (∀ tr' s', do zero (Run i pick) s = Some (tr', s') →
          tr' = if decide (Σ (reading r) (threads s) = 0)
                then [EvLock (Mu r)] else [EvLockWait (Mu r)]))
  ∧ (∀ v k, threads s !! i = Some (Update_68_wait r v k) →
     (is_Some (do zero (Run i pick) s) ↔ Σ (reading r) (threads s) = 0))
  ∧ (threads s !! i = Some (Get_57 r) →
     (is_Some (do zero (Run i pick) s)
      ↔ Σ (in_Lock_68 r) (threads s) = 0 ∧ Σ (writing r) (threads s) = 0))
  ∧ (∀ k, threads s !! i = Some (Update_63 r k) →
     is_Some (do zero (Run i pick) s)).
Proof.
  intros Hr [cache Hl]. apply cache_lock_inv_reachable in Hr as [H1 H2 H3].
  specialize (H1 r). specialize (H2 r). specialize (H3 r).
  rewrite (mu_of_lookup _ _ _ Hl) in H1, H2, H3.
  split_and!;
    [intros v k Hi; split; [|intros tr' s']|intros v k Hi|intros Hi|intros k Hi];
    unfold do; rewrite Hi; simpl; rewrite Hl; simpl.
  5: { destruct (updateFunc cache (world (mem s))) as [[? ?] ?]. simpl. eauto. }
  all: unfold Lock, Lock_granted, RLock;
    destruct (mu cache) as [[] [|n]]; simpl in *;
    try case_decide; try (intros; simplify_eq/=; done || lia);
    (split; [intros [? ?]; simplify_eq/=; try lia|intros ?; try lia; eauto]).
Qed.

(** *** A refresh that nothing holds up *)

Lemma steps_do_event a sched s e s1 tr2 s2 :
  do zero a s = Some ([e], s1) → steps zero sched s1 = Some (tr2, s2) →
  steps zero (a :: sched) s = Some (e :: tr2, s2).
Proof. intros Ha Hs. apply (steps_do _ _ _ _ _ _ _ Ha Hs). Qed.

(** [Update] of a goroutine, from the call of the producer to its return
    to the caller, when the lock of the cache is free. *)
Lemma Update_runs (pre post : list (pc T World)) r k g cache :
  heap g !! r = Some cache → mu cache = unlocked →
  ∃ sched tr,
    steps zero sched {| threads := pre ++ Update_63 r k :: post; mem := g |}
    = Some (EvInvoke r k :: tr,
            {| threads := pre ++ after_Update r k :: post; mem := refreshed r g |})
    ∧ Forall (λ e, is_invoke e = false) tr.
Proof.
  intros Hc Hmu. pose proof (lookup_lt_Some _ _ _ Hc) as Hlt.
  unfold refreshed. rewrite Hc.
  destruct (updateFunc cache (world g)) as [[v err] w'] eqn:Hf.
  pose proof (exec_Update_63 zero true r k g cache v err w' Hc Hf) as H63.
  destruct err as [msg|]; cbn [Update_64] in H63.
  - eexists [_], _. split.
    + eapply steps_do_event; [apply do_Run_middle, H63|]. reflexivity.
    + constructor.
  - eexists [_; _; _; _], _. split.
    + eapply steps_do_event; [apply do_Run_middle, H63|].
      eapply steps_do_event; [apply do_Run_middle; simpl; rewrite Hc; simpl;
                        rewrite Hmu; reflexivity|].
      eapply steps_do_event; [apply do_Run_middle; simpl;
                        rewrite list_lookup_insert_eq by done; reflexivity|].
      eapply steps_do_event; [apply do_Run_middle; simpl;
                        rewrite list_lookup_insert_eq
                          by (rewrite !length_insert; done); reflexivity|].
      simpl. rewrite !list_insert_insert_eq.
      replace (set_mu _ _) with (set_value v cache)
        by (destruct cache; simpl in *; subst; reflexivity).
      reflexivity.
    + repeat constructor.
Qed.

Lemma refreshed_set_now t r g :
  refreshed r (set_now t g) = set_now t (refreshed r g).
Proof.
  unfold refreshed. simpl. destruct (heap g !! r) as [cache|]; [|done].
  destruct (updateFunc cache (world g)) as [[v [msg|]] w']; done.
Qed.

(** X8. The background loop refreshes its cache when the period has
    elapsed, and not before.  Let the loop of cache [r] be at the head of
    its [for], the context not cancelled and the lock of the cache free.
    When the loop has started its timer and the period (or no time, for a
    period that is not positive) has passed, the loop can run one round:
    it calls the producer once, stores the result unless the producer
    failed, and is back at the head of the [for], every other goroutine
    being where it was.  When less than the period has passed, the loop
    cannot leave its [select]. *)
Theorem loop_refreshes_when_period_elapses s t r c cache :
  threads s !! t = Some (updateLoop_46 r c) →
  heap (mem s) !! r = Some cache →
  mu cache = unlocked →
  c ∉ cancelled (mem s) →
  (∃ sched tr s',
     steps zero (Run t true :: Advance (Z.max 0 (period cache)) :: sched) s
     = Some (tr, s')
     ∧ threads s' = threads s
     ∧ mem s' = set_now (now (mem s) + Z.max 0 (period cache))%Z
                  (refreshed r (mem s))
     ∧ Σ (λ e, Nat.b2n (is_invoke e)) tr = 1)
  ∧ (∀ dt pick, (dt < period cache)%Z →
       steps zero [Run t true; Advance dt; Run t pick] s = None).
Proof.
  destruct s as [ths g]. cbn [threads mem]. intros Ht Hc Hmu Hctx.
  pose proof (lookup_lt_Some _ _ _ Ht) as Hlt.
  set (d := Z.max 0 (period cache)).
  assert (ctx_done c g = false) as Hdone.
  { unfold ctx_done. apply bool_decide_eq_false. done. }
  split.
  - set (g1 := set_now (now g + d)%Z g).
    pose proof (take_drop_middle _ _ _ Ht) as Hths.
    destruct (Update_runs (take t ths) (drop (S t) ths) r (FromLoop c) g1 cache)
      as (sched & tr & Hs & Hf); [done..|].
    assert (length (take t ths) = t) as Hlen by (rewrite length_take; lia).
    eexists (Run t true :: sched), _, _. split; [|split_and!].
    + eapply steps_do.
      { eapply do_Run_at; [exact Ht|]. simpl. rewrite Hc. reflexivity. }
      eapply steps_do.
      { simpl. fold d. replace (0 <=? d)%Z with true by (symmetry; apply Z.leb_le; lia).
        reflexivity. }
      eapply steps_do.
      { eapply do_Run_at; [apply list_lookup_insert_eq; done|].
        simpl. unfold ctx_done, timer_fired, timer_deadline in *. simpl.
        rewrite Hdone. fold d.
        replace (now g + d <=? now g + d)%Z with true
          by (symmetry; apply Z.leb_le; lia).
        reflexivity. }
      rewrite list_insert_insert_eq.
      rewrite <- Hths at 1. rewrite <- Hlen at 1.
      rewrite insert_app_r_alt, Nat.sub_diag by lia. simpl.
      exact Hs.
    + simpl. done.
    + simpl. fold d. fold g1. apply refreshed_set_now.
    + simpl. clear Hs. induction Hf as [|e tr He Hf IH]; simpl; [done|].
      rewrite He. simpl in *. lia.
  - intros dt pick Hdt.
    destruct (steps zero _ _) as [[tr s']|] eqn:Hs; [exfalso|done].
    apply steps_cons in Hs as (tr1 & s1 & tr2 & Ha1 & Hs & ->).
    apply steps_cons in Hs as (tr3 & s2 & tr4 & Ha2 & Hs & ->).
    apply steps_cons in Hs as (tr5 & s3 & tr6 & Ha3 & _ & ->).
    erewrite do_Run_at in Ha1; [|exact Ht|simpl; rewrite Hc; reflexivity].
    simplify_eq. simpl in Ha2. destruct (0 <=? dt)%Z eqn:H0; simplify_eq.
    apply do_Run_inv in Ha3 as (p & e & p' & st & g' & Hi & He & _).
    simpl in Hi. rewrite list_lookup_insert_eq in Hi by done. simplify_eq.
    simpl in He. unfold ctx_done, timer_fired, timer_deadline in He, Hdone.
    simpl in He. rewrite Hdone in He.
    replace (now g + Z.max 0 (period cache) <=? now g + dt)%Z with false in He
      by (symmetry; apply Z.leb_gt; lia).
    done.
Qed.

(** *** A producer that always fails *)

Lemma lookup_snoc_cases {A} (h : list A) x r :
  (h ++ [x]) !! r = if decide (r = length h) then Some x else h !! r.
Proof.
  case_decide as Hr.
  - subst. apply list_lookup_middle. done.
  - destruct (decide (r < length h)).
    + apply lookup_app_l. done.
    + rewrite !lookup_ge_None_2; [done|lia|]. rewrite length_app. simpl. lia.
Qed.

Lemma lookup_insert_cases {A} (h : list A) r' x y r :
  h !! r' = Some x →
  <[r' := y]> h !! r = if decide (r = r') then Some y else h !! r.
Proof.
  intros Hl. case_decide as Hr.
  - subst. apply list_lookup_insert_eq. eapply lookup_lt_Some, Hl.
  - apply list_lookup_insert_ne. done.
Qed.

Lemma failing_inv_init (w : World) : failing_inv zero [] (init (T:=T) w).
Proof. intros r _. split_and!; [done|constructor|done]. Qed.

Lemma failing_inv_do a tr s tr' s' :
  failing_inv zero tr s → do zero a s = Some (tr', s') →
  failing_inv zero (tr ++ tr') s'.
Proof.
  intros Hinv Hdo r Hfail'.
  assert (∀ cache, heap (mem s) !! r = Some cache → always_fails (updateFunc cache))
    as Hfail.
  { intros cache Hl.
    destruct (configuration_do _ _ _ _ _ _ Hdo Hl) as (c' & Hl' & _ & Hf).
    rewrite <- Hf. eauto. }
  destruct (Hinv r Hfail) as (Hs & Htr & Hv). clear Hinv Hfail'.
  unfold unstored. rewrite Forall_app.
  destruct a as [i pick|p|c|dt].
  - apply do_Run_inv in Hdo as (p & e & p' & st & g' & Hi & He & -> & ->).
    rewrite Forall_singleton.
    exec_cases He; simpl in *.
    all: rewrite ?lookup_snoc_cases;
      try (erewrite lookup_insert_cases by eassumption).
    all: account Hi; simpl in *.
    all: repeat first [case_decide | case_bool_decide | progress simplify_eq/=].
    all: try match goal with
             | H : heap _ !! ?r' = Some _ |- _ => rewrite H in Hv; simpl in Hv
             end.
    all: try match goal with
             | H : heap ?g0 !! ?r' = Some _ |- context [heap ?g0 !! ?r'] =>
                 rewrite H; simpl
             end.
    all: try (split_and!; try done; lia).
    all: exfalso;
      match goal with
      | Hf : updateFunc ?c ?w0 = (_, None, _), Hl : heap _ !! _ = Some ?c |- _ =>
          apply (Hfail _ Hl w0); rewrite Hf; done
      end.
  - simpl in Hdo. destruct (entry p) eqn:Hp; simplify_eq.
    split_and!; [|done|constructor|done]. simpl. rewrite sum_list_with_app, Hs. simpl.
    destruct p as [ | | | | | | | | | | |? []| | | | | | | | | | | | ]; simplify_eq/=; done.
  - simpl in Hdo. simplify_eq. split_and!; [done|done|constructor|done].
  - simpl in Hdo. case_match; simplify_eq. split_and!; [done|done|constructor|done].
Qed.

Lemma failing_inv_steps sched tr s tr' s' :
  failing_inv zero tr s → steps zero sched s = Some (tr', s') →
  failing_inv zero (tr ++ tr') s'.
Proof.
  revert tr s tr'. induction sched as [|a sched IH]; intros tr s tr' Hinv Hs.
  - simpl in Hs. simplify_eq. rewrite app_nil_r. done.
  - apply steps_cons in Hs as (tr1 & s1 & tr2 & Ha & Hb & ->).
    rewrite app_assoc. eapply IH; [|exact Hb]. eapply failing_inv_do; eauto.
Qed.

(** X9. A cache whose producer always fails keeps the zero value for
    ever: in every reachable state it holds the zero value, nothing has
    ever been stored in it, whoever called [Update] and however often, and
    no goroutine is on its way to the store. *)
Theorem failing_producer_keeps_zero_value w tr s r cache :
  reachable zero w tr s →
  heap (mem s) !! r = Some cache →
  always_fails (updateFunc cache) →
  value cache = zero
  ∧ (∀ v k, EvStore r v k ∉ tr)
  ∧ Σ (storing r) (threads s) = 0.
Proof.
  intros [sched Hs] Hl Hfail.
  pose proof (failing_inv_steps sched [] _ _ _ (failing_inv_init w) Hs r) as Hinv.
  simpl in Hinv. destruct Hinv as (Hst & Htr & Hv).
  { intros c' Hl'. simplify_eq. done. }
  rewrite Hl in Hv. split_and!; [done| |done].
  intros v k Hin. rewrite Forall_forall in Htr. specialize (Htr _ Hin).
  simpl in Htr. rewrite bool_decide_eq_false in Htr. done.
Qed.

(** *** What a cache holds *)

Lemma last_stored_do a tr s tr' s' :
  (∀ r, default zero (value <$> heap (mem s) !! r) = last_stored zero r tr) →
  do zero a s = Some (tr', s') →
  ∀ r, default zero (value <$> heap (mem s') !! r) = last_stored zero r (tr ++ tr').
Proof.
  intros Hinv Hdo r. specialize (Hinv r). unfold last_stored in *.
  rewrite foldl_app, <- Hinv. clear Hinv.
  destruct a as [i pick|p|c|dt].
  - apply do_Run_inv in Hdo as (p & e & p' & st & g' & Hi & He & -> & ->).
    exec_cases He; simpl in *; try done.
    all: rewrite ?lookup_snoc_cases;
      try (erewrite lookup_insert_cases by eassumption).
    all: repeat first [case_decide | progress simplify_eq/=]; try done.
    all: try match goal with
             | H : heap _ !! ?r' = Some _ |- _ => rewrite H; simpl
             end; try done.
    rewrite lookup_ge_None_2 by lia. done.
  - simpl in Hdo. destruct (entry p); simplify_eq. done.
  - simpl in Hdo. simplify_eq. done.
  - simpl in Hdo. case_match; simplify_eq. done.
Qed.

Lemma last_stored_reachable w tr s :
  reachable zero w tr s →
  ∀ r, default zero (value <$> heap (mem s) !! r) = last_stored zero r tr.
Proof.
  intros [sched Hs]. revert Hs.
  change tr with ([] ++ tr) at 2.
  assert (∀ r, default zero (value <$> heap (mem (init (T:=T) w)) !! r)
               = last_stored zero r []) as Hinit by done.
  revert Hinit. generalize (init (T:=T) w). generalize (@nil (event T)).
  revert tr. induction sched as [|a sched IH]; intros tr tr0 s0 Hinit Hs.
  - simpl in Hs. simplify_eq. rewrite app_nil_r. done.
  - apply steps_cons in Hs as (tr1 & s1 & tr2 & Ha & Hb & ->).
    rewrite app_assoc. eapply IH; [|exact Hb]. eapply last_stored_do; eauto.
Qed.

(** X10. A cache holds the value of the last store: in every reachable
    state the value of a cache is the one its most recent store put there,
    whichever goroutine made it, and the zero value when nothing has been
    stored yet; and this is what a [Get] reads at line 59. *)
Theorem cache_holds_last_stored_value w tr s r cache :
  reachable zero w tr s →
  heap (mem s) !! r = Some cache →
  value cache = last_stored zero r tr
  ∧ ∀ i pick e s', do zero (Run i pick) s = Some ([e], s') →
      ∀ v, e = EvLoad r v → v = last_stored zero r tr.
Proof.
  intros Hr Hl. pose proof (last_stored_reachable _ _ _ Hr r) as Hinv.
  rewrite Hl in Hinv. simpl in Hinv. split; [done|].
  intros i pick e s' Hdo v ->.
  apply do_Run_inv in Hdo as (p & e' & p' & st & g' & Hi & He & [= <-] & ->).
  exec_cases He. simplify_eq. done.
Qed.

(** *** No deadlock *)












(** *** Calls in a row *)

Lemma refreshed_idle r r' g :
  idle g r' → idle (refreshed r g) r'.
Proof.
  intros (cache' & Hl' & Hmu'). unfold refreshed.
  destruct (heap g !! r) as [cache|] eqn:Hl; [|exists cache'; done].
  destruct (updateFunc cache (world g)) as [[v [msg|]] w']; [exists cache'; done|].
  unfold idle. simpl. destruct (decide (r' = r)) as [->|Hne].
  - pose proof (lookup_lt_Some _ _ _ Hl) as Hlt. simplify_eq.
    eexists. rewrite list_lookup_insert_eq by done. done.
  - exists cache'. rewrite list_lookup_insert_ne by done. done.
Qed.

Lemma Update_is_refreshed g r :
  idle g r →
  ∃ es, call zero (Update r) g = Some (RUnit, es, [], refreshed r g).
Proof.
  intros (cache & Hl & Hmu). unfold refreshed. rewrite Hl.
  destruct (updateFunc cache (world g)) as [[v [msg|]] w'] eqn:Hf.
  - eexists. eapply Update_fails; eauto.
  - eexists. eapply Update_succeeds; eauto.
Qed.

(** X12. Calls of [Update] in a row, by one caller with nobody in
    between, on a cache whose lock is free: each of them returns, their
    effect is that of as many refreshes one after the other (each call of
    the producer sees the world the one before has left), and a [Get]
    afterwards returns the value the cache then holds and changes
    nothing. *)
Theorem Updates_then_Get n g r :
  idle g r →
  Updates zero n r g = Some (Nat.iter n (refreshed r) g)
  ∧ ∃ cache', heap (Nat.iter n (refreshed r) g) !! r = Some cache'
      ∧ call zero (Get r) (Nat.iter n (refreshed r) g)
        = Some (RVal (value cache'),
                [EvRLock (Mu r); EvLoad r (value cache'); EvRUnlock (Mu r)], [],
                Nat.iter n (refreshed r) g).
Proof.
  intros Hidle. split.
  - revert g Hidle. induction n as [|n IH]; intros g Hidle; [done|].
    destruct (Update_is_refreshed g r Hidle) as [es Hu].
    cbn [Updates]. rewrite Hu. simpl. rewrite IH by (apply refreshed_idle; done).
    rewrite <- Nat.iter_succ_r. done.
  - assert (idle (Nat.iter n (refreshed r) g) r) as (cache' & Hl & Hmu).
    { induction n as [|n IH]; simpl; [done|]. apply refreshed_idle. done. }
    exists cache'. split; [done|]. apply Get_returns; [done|]. rewrite Hmu. done.
Qed.

(** *** A fan-out with nobody to wait for *)

Lemma run_blocked fuel p g :
  exec zero true p g = None → (∀ rv, p ≠ Returned rv) → run zero fuel p g = None.
Proof.
  intros He Hp. destruct fuel as [|fuel].
  - destruct p; try reflexivity. destruct (Hp rv). reflexivity.
  - destruct p; try (cbn [run]; rewrite He; reflexivity).
    destruct (Hp rv). reflexivity.
Qed.

Lemma fanout_waits fuel rest wg g n :
  waitGroups g !! wg = Some (S n) →
  run zero fuel (GlobalCacheUpdate_84 rest wg) g = None.
Proof.
  intros Hwg. revert fuel. induction rest as [|c rest IH]; intros [|fuel]; try done.
  - cbn [run]. simpl. destruct fuel as [|fuel]; [done|]. simpl. rewrite Hwg. done.
  - cbn [run]. simpl. rewrite IH. done.
Qed.

Lemma run_out_of_fuel p g :
  (∀ rv, p ≠ Returned rv) → run zero 0 p g = None.
Proof. intros Hp. destruct p; try reflexivity. destruct (Hp rv). reflexivity. Qed.

(** X13. [GlobalCacheUpdate] with no goroutine but its own, given any
    number of steps.  While a [New] holds the write lock of the registry or
    waits for it, it waits at line 75.  On an empty registry it returns
    after six statements: it declares a wait group, adds nothing to it,
    starts no goroutine, and leaves everything else as it was.  On a
    registry with an entry it never returns on its own, however many steps
    it is given: [wg.Wait()] waits for the goroutines it has started. *)
Theorem GlobalCacheUpdate_on_its_own fuel g :
  run zero fuel GlobalCacheUpdate g =
    if writer (globalCachesMutex g) then None
    else match globalCaches g with
         | [] =>
             let wg := length (waitGroups g) in
             if decide (6 ≤ fuel)
             then Some (RUnit,
                        [EvRLock Registry; EvAdd wg 0; EvRange wg [];
                         EvRangeEnd wg; EvWait wg; EvRUnlock Registry],
                        [], set_waitGroups (waitGroups g ++ [0]) g)
             else None
         | _ :: _ => None
         end.
Proof.
  unfold GlobalCacheUpdate.
  destruct (writer (globalCachesMutex g)) eqn:Hw.
  { apply run_blocked; [|done]. cbn [exec]. unfold RLock. rewrite Hw. done. }
  destruct (globalCaches g) as [|c R] eqn:HR.
  - cbn zeta.
    destruct fuel as [|fuel]; [rewrite decide_False by lia; by apply run_out_of_fuel|].
    erewrite run_S by (cbn [exec]; unfold RLock; rewrite Hw; reflexivity).
    destruct fuel as [|fuel]; [rewrite decide_False by lia; by rewrite run_out_of_fuel|].
    erewrite run_S by reflexivity.
    destruct fuel as [|fuel]; [rewrite decide_False by lia; by rewrite run_out_of_fuel|].
    erewrite run_S by reflexivity.
    cbn [globalCaches set_waitGroups set_globalCachesMutex]. rewrite HR.
    destruct fuel as [|fuel]; [rewrite decide_False by lia; by rewrite run_out_of_fuel|].
    erewrite run_S by reflexivity.
    destruct fuel as [|fuel]; [rewrite decide_False by lia; by rewrite run_out_of_fuel|].
    erewrite run_S; last first.
    { cbn [exec waitGroups set_waitGroups]. rewrite list_lookup_middle by done.
      reflexivity. }
    destruct fuel as [|fuel]; [rewrite decide_False by lia; by rewrite run_out_of_fuel|].
    erewrite run_S by reflexivity.
    rewrite run_Returned, decide_True by lia.
    destruct g as [h [wr rd] R' wgs w0 t0 cs]. simpl in Hw, HR. subst wr R'.
    reflexivity.
  - destruct fuel as [|fuel]; [by apply run_out_of_fuel|].
    erewrite run_S by (cbn [exec]; unfold RLock; rewrite Hw; reflexivity).
    destruct fuel as [|fuel]; [by rewrite run_out_of_fuel|].
    erewrite run_S by reflexivity.
    destruct fuel as [|fuel]; [by rewrite run_out_of_fuel|].
    erewrite run_S by reflexivity.
    cbn [globalCaches set_waitGroups set_globalCachesMutex]. rewrite HR.
    erewrite fanout_waits; [done|]. cbn [waitGroups length].
    apply list_lookup_middle. done.
Qed.

(** *** A fan-out whose goroutines run one after the other *)

Lemma refreshed_set_waitGroups W r g :
  refreshed r (set_waitGroups W g) = set_waitGroups W (refreshed r g).
Proof.
  unfold refreshed. simpl. destruct (heap g !! r) as [cache|]; [|done].
  destruct (updateFunc cache (world g)) as [[v [msg|]] w']; done.
Qed.

Lemma refreshed_set_globalCachesMutex m r g :
  refreshed r (set_globalCachesMutex m g) = set_globalCachesMutex m (refreshed r g).
Proof.
  unfold refreshed. simpl. destruct (heap g !! r) as [cache|]; [|done].
  destruct (updateFunc cache (world g)) as [[v [msg|]] w']; done.
Qed.

Lemma refreshed_frame r g :
  waitGroups (refreshed r g) = waitGroups g
  ∧ globalCachesMutex (refreshed r g) = globalCachesMutex g
  ∧ globalCaches (refreshed r g) = globalCaches g
  ∧ now (refreshed r g) = now g
  ∧ cancelled (refreshed r g) = cancelled g
  ∧ length (heap (refreshed r g)) = length (heap g).
Proof.
  unfold refreshed. destruct (heap g !! r) as [cache|]; [|done].
  destruct (updateFunc cache (world g)) as [[v [msg|]] w']; simpl; [done|].
  rewrite length_insert. done.
Qed.

Lemma refreshed_all_set_waitGroups W l g :
  refreshed_all l (set_waitGroups W g) = set_waitGroups W (refreshed_all l g).
Proof.
  revert g. induction l as [|c l IH]; intros g; [done|].
  unfold refreshed_all in *. simpl. rewrite refreshed_set_waitGroups. apply IH.
Qed.

Lemma refreshed_all_set_globalCachesMutex m l g :
  refreshed_all l (set_globalCachesMutex m g)
  = set_globalCachesMutex m (refreshed_all l g).
Proof.
  revert g. induction l as [|c l IH]; intros g; [done|].
  unfold refreshed_all in *. simpl. rewrite refreshed_set_globalCachesMutex. apply IH.
Qed.

Lemma refreshed_all_frame l g :
  waitGroups (refreshed_all l g) = waitGroups g
  ∧ globalCachesMutex (refreshed_all l g) = globalCachesMutex g
  ∧ globalCaches (refreshed_all l g) = globalCaches g
  ∧ now (refreshed_all l g) = now g
  ∧ cancelled (refreshed_all l g) = cancelled g
  ∧ length (heap (refreshed_all l g)) = length (heap g).
Proof.
  revert g. induction l as [|c l IH]; intros g; [done|].
  unfold refreshed_all in *. simpl.
  destruct (IH (refreshed c g)) as (-> & -> & -> & -> & -> & ->).
  apply refreshed_frame.
Qed.

Lemma worker_refreshes (pre post : list (pc T World)) c wg g n :
  idle g c →
  waitGroups g !! wg = Some (S n) →
  ∃ sched tr,
    steps zero sched
      {| threads := pre ++ Update_63 c (FromFanOut wg) :: post; mem := g |}
    = Some (tr, {| threads := pre ++ Returned RUnit :: post;
                   mem := set_waitGroups (<[wg := n]> (waitGroups g)) (refreshed c g) |})
    ∧ invoked wg tr = [c].
Proof.
  intros (cache & Hc & Hmu) Hwg.
  destruct (Update_runs pre post c (FromFanOut wg) g cache Hc Hmu)
    as (sched & tr & Hs & Hf).
  destruct (refreshed_frame c g) as (Hw & _).
  exists (sched ++ [Run (length pre) true]), ((EvInvoke c (FromFanOut wg) :: tr) ++ [EvWgDone wg]).
  split.
  - eapply steps_app; [exact Hs|]. eapply steps_do_event; [|reflexivity].
    apply do_Run_middle. simpl. rewrite Hw, Hwg. done.
  - rewrite invoked_app. simpl. rewrite decide_True by done. simpl.
    assert (invoked wg tr = []) as ->; [|done].
    clear Hs. induction Hf as [|e tr' He Hf IH]; [done|].
    change (invoked wg (e :: tr')) with (invoked_by wg e ++ invoked wg tr').
    rewrite IH. destruct e; simpl in *; try done.
Qed.

Lemma workers_refresh wg (rest : list ptr) (pre : list (pc T World)) g k :
  Forall (idle g) rest →
  waitGroups g !! wg = Some (length rest + k) →
  ∃ sched tr,
    steps zero sched
      {| threads := pre ++ ((λ c, Update_63 c (FromFanOut wg)) <$> rest); mem := g |}
    = Some (tr, {| threads := pre ++ ((λ _, Returned RUnit) <$> rest);
                   mem := set_waitGroups (<[wg := k]> (waitGroups g))
                            (refreshed_all rest g) |})
    ∧ invoked wg tr = rest.
Proof.
  revert pre g. induction rest as [|c rest IH]; intros pre g Hidle Hwg.
  - exists [], []. split; [|done]. simpl. rewrite list_insert_id by done.
    destruct g; done.
  - apply Forall_cons in Hidle as [Hc Hrest]. simpl in Hwg.
    destruct (worker_refreshes pre ((λ c, Update_63 c (FromFanOut wg)) <$> rest)
                c wg g (length rest + k) Hc Hwg) as (sched1 & tr1 & Hs1 & Hi1).
    pose proof (lookup_lt_Some _ _ _ Hwg) as Hlt.
    destruct (IH (pre ++ [Returned RUnit])
                (set_waitGroups (<[wg := length rest + k]> (waitGroups g))
                   (refreshed c g)))
      as (sched2 & tr2 & Hs2 & Hi2).
    { eapply Forall_impl; [exact Hrest|]. intros r Hr.
      apply (refreshed_idle c) in Hr. exact Hr. }
    { simpl. apply list_lookup_insert_eq. done. }
    exists (sched1 ++ sched2), (tr1 ++ tr2). split.
    + rewrite <- !app_assoc in Hs2. cbn [app] in Hs2.
      eapply steps_app; [exact Hs1|]. etrans; [exact Hs2|].
      cbn [waitGroups set_waitGroups].
      rewrite list_insert_insert_eq, refreshed_all_set_waitGroups.
      reflexivity.
    + rewrite invoked_app, Hi1, Hi2. done.
Qed.

(** The loop of lines 83 to 88, with its events. *)
Lemma fanout_starts wg t (rest : list ptr) (ths : list (pc T World)) g :
  ths !! t = Some (GlobalCacheUpdate_84 rest wg) →
  ∃ sched,
    steps zero sched {| threads := ths; mem := g |}
    = Some ((λ c, EvGoWorker c wg) <$> rest,
            {| threads := <[t := GlobalCacheUpdate_84 [] wg]> ths
                          ++ ((λ c, Update_63 c (FromFanOut wg)) <$> rest);
               mem := g |}).
Proof.
  revert ths. induction rest as [|c rest IH]; intros ths Ht.
  - exists []. simpl. rewrite app_nil_r, list_insert_id by done. done.
  - pose proof (lookup_lt_Some _ _ _ Ht) as Hlt.
    destruct (IH (<[t := GlobalCacheUpdate_84 rest wg]> ths
                  ++ [Update_63 c (FromFanOut wg)])) as (sched & Hs).
    { apply lookup_app_l_Some, list_lookup_insert_eq. done. }
    exists (Run t true :: sched).
    eapply steps_do_event.
    + unfold do. cbn [threads mem]. rewrite Ht. reflexivity.
    + rewrite Hs. rewrite insert_app_l by (rewrite length_insert; done).
      rewrite list_insert_insert_eq, <- app_assoc. done.
Qed.

Lemma invoked_starts wg wg' (rest : list ptr) :
  invoked wg ((λ c, EvGoWorker (T:=T) c wg') <$> rest) = [].
Proof. induction rest as [|c rest IH]; [done|]. exact IH. Qed.

(** X14. A fan-out whose goroutines run one after the other, in the order
    of the registry.  When nobody holds the write lock of the registry nor
    the lock of a registered cache, a goroutine that calls
    [GlobalCacheUpdate] can return after a run in which the producers are
    called in the order of the registry, each seeing the world the one
    before has left; the caches then hold what as many refreshes in a row
    give, the goroutines started have all returned, the lock of the
    registry is as it was, and the wait group declared has counter zero. *)
Theorem fanout_in_registry_order s t :
  threads s !! t = Some GlobalCacheUpdate_75 →
  quiet (mem s) →
  ∃ sched tr,
    steps zero sched s
    = Some (tr,
            {| threads := <[t := Returned RUnit]> (threads s)
                          ++ ((λ _, Returned RUnit) <$> globalCaches (mem s));
               mem := set_waitGroups (waitGroups (mem s) ++ [0])
                        (refreshed_all (globalCaches (mem s)) (mem s)) |})
    ∧ invoked (length (waitGroups (mem s))) tr = globalCaches (mem s).
Proof.
  destruct s as [ths g]. cbn [threads mem]. intros Ht [Hw Hidle].
  pose proof (lookup_lt_Some _ _ _ Ht) as Hlt.
  set (wg := length (waitGroups g)).
  set (R := globalCaches g).
  set (m1 := {| writer := false; readers := S (readers (globalCachesMutex g)) |}).
  set (g1 := set_globalCachesMutex m1 g).
  set (g2 := set_waitGroups (waitGroups g ++ [length R]) g1).
  destruct (fanout_starts wg t R (<[t := GlobalCacheUpdate_84 R wg]> ths) g2)
    as (sched4 & Hs4).
  { apply list_lookup_insert_eq. done. }
  rewrite list_insert_insert_eq in Hs4.
  destruct (workers_refresh wg R (<[t := GlobalCacheUpdate_91 wg]> ths) g2 0)
    as (sched6 & tr6 & Hs6 & Hi6).
  { exact Hidle. }
  { rewrite Nat.add_0_r. apply list_lookup_middle. done. }
  set (g6 := set_waitGroups (<[wg := 0]> (waitGroups g2)) (refreshed_all R g2)) in *.
  destruct (refreshed_all_frame R g) as (Hf1 & Hf2 & _).
  assert (g6 = set_waitGroups (waitGroups g ++ [0])
                 (set_globalCachesMutex m1 (refreshed_all R g))) as Hg6.
  { unfold g6, g2, g1.
    rewrite refreshed_all_set_waitGroups, refreshed_all_set_globalCachesMutex.
    cbn [waitGroups set_waitGroups].
    rewrite insert_app_r_alt, Nat.sub_diag by done. reflexivity. }
  exists (Run t true :: Run t true :: Run t true :: sched4 ++ Run t true :: sched6
           ++ [Run t true; Run t true]),
    (EvRLock Registry :: EvAdd wg (length R) :: EvRange wg R
     :: ((λ c, EvGoWorker c wg) <$> R) ++ EvRangeEnd wg :: tr6
     ++ [EvWait wg; EvRUnlock Registry]).
  split.
  - eapply steps_do_event.
    { eapply do_Run_at; [exact Ht|]. cbn [exec]. unfold RLock. rewrite Hw. reflexivity. }
    eapply steps_do_event.
    { eapply do_Run_at; [apply list_lookup_insert_eq; done|]. reflexivity. }
    eapply steps_do_event.
    { eapply do_Run_at; [apply list_lookup_insert_eq; rewrite length_insert; done|].
      reflexivity. }
    rewrite !list_insert_insert_eq.
    eapply steps_app; [exact Hs4|].
    eapply steps_do_event.
    { eapply do_Run_at.
      - apply lookup_app_l_Some, list_lookup_insert_eq. done.
      - reflexivity. }
    rewrite insert_app_l by (rewrite length_insert; done).
    rewrite list_insert_insert_eq.
    eapply steps_app; [exact Hs6|].
    eapply steps_do_event.
    { eapply do_Run_at.
      - apply lookup_app_l_Some, list_lookup_insert_eq. done.
      - cbn [exec]. rewrite Hg6. cbn [waitGroups set_waitGroups].
        rewrite list_lookup_middle by done. reflexivity. }
    eapply steps_do_event.
    { eapply do_Run_at.
      - rewrite insert_app_l by (rewrite length_insert; done).
        apply lookup_app_l_Some, list_lookup_insert_eq. rewrite length_insert. done.
      - cbn [exec]. rewrite Hg6.
        cbn [globalCachesMutex set_waitGroups set_globalCachesMutex].
        reflexivity. }
    cbn [steps]. f_equal. f_equal. f_equal.
    + rewrite insert_app_l by (rewrite !length_insert; done).
      rewrite insert_app_l by (rewrite !length_insert; done).
      rewrite !list_insert_insert_eq. done.
    + destruct (refreshed_all R g) as [h m R' wgs w0 t0 cs].
      cbn in Hf2. subst m. destruct (globalCachesMutex g) as [wr rd].
      cbn in Hw. subst wr. reflexivity.
  - change (invoked wg ([EvRLock Registry; EvAdd wg (length R); EvRange wg R]
                         ++ ((λ c, EvGoWorker c wg) <$> R) ++ [EvRangeEnd wg] ++ tr6
                         ++ [EvWait wg; EvRUnlock Registry]) = R).
    rewrite !invoked_app, invoked_starts, Hi6. cbn. apply app_nil_r.
Qed.

(** *** [Get] after [New] *)

Lemma last_stored_none r tr (v : T) :
  Forall (λ e, stores r e = false) tr →
  foldl (λ v e, match e with
                | EvStore r' v' _ => if decide (r = r') then v' else v
                | _ => v
                end) v tr = v.
Proof.
  intros Hf. revert v. induction Hf as [|e tr He Hf IH]; intros v; [done|].
  simpl. rewrite IH. destruct e; try done. simpl in He.
  case_decide; [|done]. by apply bool_decide_eq_false in He.
Qed.

Lemma New_phase_do t r v err v0 a s tr' s' :
  registry_inv s → New_phase t r v err v0 s →
  do zero a s = Some (tr', s') →
  Forall (λ e, stores_other r e = false) tr' →
  New_phase t r v err v0 s'.
Proof.
  intros [_ Hreg] Hph Hdo Hno. unfold New_phase in *.
  destruct (threads s !! t) as [pt|] eqn:Ht; [|done].
  destruct a as [i pick|p|c|dt].
  - pose proof Hdo as Hdo'.
    apply do_Run_inv in Hdo as (p & e & p' & st & g' & Hi & He & -> & ->).
    apply Forall_inv in Hno.
    simpl. destruct (decide (i = t)) as [->|Hit].
    + rewrite (lookup_this_thread _ _ _ _ _ Hi). simplify_eq.
      clear Hdo'. exec_cases He; simpl in *; try done.
      all: try destruct k; try done.
      all: destruct_and?; simplify_eq.
      all: pose proof (lookup_lt_Some _ _ _ Hlook).
      all: rewrite list_lookup_insert_eq by done; simpl.
      all: rewrite Hlook in *; simplify_eq/=; done.
    + rewrite (lookup_other_thread _ _ _ _ _ _ Hit Ht).
      assert (∃ x, value <$> heap (mem s) !! r = Some x) as [x Hx].
      { destruct pt as [ | | | | | | | | | | | |? ? []|? ? []|? ? []|? []| | | | | | | |[]];
          try done; destruct_and?; eauto. }
      assert (r < length (heap (mem s))) as Hlt.
      { destruct (heap (mem s) !! r) eqn:Hl; [|done]. eapply lookup_lt_Some, Hl. }
      destruct (value_changes_by_store r _ _ _ _ Hdo' Hlt) as [Hsame|(v' & k & [= ->])].
      { simpl in Hsame. rewrite Hsame. done. }
      exfalso. specialize (Hreg r). rewrite decide_True in Hreg by done.
      exec_cases He; simplify_eq/=.
      all: try (by apply bool_decide_eq_false in Hno).
      pose proof (sum_lookup_le (registering r) _ _ _ Hi) as H1.
      pose proof (sum_lookup_le (registered r) _ _ _ Ht) as H2.
      pose proof (sum_lookup_le2 (registering r) _ _ _ _ _ Hit Hi Ht) as H3.
      simpl in H1, H2, H3. rewrite decide_True in H1, H3 by done.
      destruct k; try (by apply bool_decide_eq_false in Hno). simpl in *.
      destruct pt as [ | | | | | | | | | | | |? ? []|? ? []|? ? []|? []| | | | | | | |[]];
        try done; destruct_and?; simplify_eq/=;
        repeat case_decide; try done; lia.
  - simpl in Hdo. destruct (entry p) eqn:Hp; simplify_eq.
    simpl. rewrite (lookup_app_l_Some _ _ _ _ Ht). done.
  - simpl in Hdo. simplify_eq. simpl. rewrite Ht. done.
  - simpl in Hdo. case_match; simplify_eq. simpl. rewrite Ht. done.
Qed.

Lemma New_phase_steps t r v err v0 sched s tr' s' :
  registry_inv s → New_phase t r v err v0 s →
  steps zero sched s = Some (tr', s') →
  Forall (λ e, stores_other r e = false) tr' →
  New_phase t r v err v0 s'.
Proof.
  revert s tr'. induction sched as [|a sched IH]; intros s tr' Hreg Hph Hs Hno.
  - simpl in Hs. simplify_eq. done.
  - apply steps_cons in Hs as (tr1 & s1 & tr2 & Ha & Hb & ->).
    apply Forall_app in Hno as [Hno1 Hno2].
    eapply IH; [| |exact Hb|exact Hno2].
    + eapply registry_inv_do; eauto.
    + eapply New_phase_do; eauto.
Qed.

(** C3. [Get] after [New] returns what the first call of the producer
    returned when its error was nil, and the zero value of [T] otherwise, as
    long as no other refresh of the cache has stored in between.  Let [New]
    be about to call the producer, at line 34, nothing having been stored in
    the cache [r] it has allocated, and let the producer return [v] and
    [err].  In every state reached from there by steps of any goroutines in
    which [New] has returned [r], a [Get] reads the value of the last store
    made to [r] since, and the zero value when there is none; and when
    neither the loop, nor a fan-out, nor a client's [Update] has stored in
    [r], this is [v] when [err] is nil and the zero value otherwise. *)
Theorem Get_after_New_returns_first_result w tr1 s1 t r c cache v err w1 :
  reachable zero w tr1 s1 →
  threads s1 !! t = Some (Update_63 r (FromNew c)) →
  heap (mem s1) !! r = Some cache →
  updateFunc cache (world (mem s1)) = (v, err, w1) →
  Forall (λ e, stores r e = false) tr1 →
  ∀ pick sched tr2 s2,
    steps zero (Run t pick :: sched) s1 = Some (tr2, s2) →
    threads s2 !! t = Some (Returned (RCache r)) →
    (∀ i pick' e s3,
       do zero (Run i pick') s2 = Some ([e], s3) →
       ∀ v', e = EvLoad r v' → v' = last_stored zero r tr2)
    ∧ (Forall (λ e, stores_other r e = false) tr2 →
       last_stored zero r tr2 = match err with None => v | Some _ => zero end
       ∧ value <$> heap (mem s2) !! r
         = Some (match err with None => v | Some _ => zero end)).
Proof.
  intros Hr Ht Hl Hf Hnone pick sched tr2 s2 Hs Ht2.
  pose proof (last_stored_reachable _ _ _ Hr r) as Hlast.
  unfold last_stored in Hlast. rewrite (last_stored_none r tr1 zero Hnone) in Hlast.
  rewrite Hl in Hlast. simpl in Hlast.
  assert (default zero (value <$> heap (mem s2) !! r) = last_stored zero r tr2)
    as Hlast2.
  { destruct Hr as [sched1 Hs1].
    assert (reachable zero w (tr1 ++ tr2) s2) as Hr2
      by (eexists; eapply steps_app; eauto).
    rewrite (last_stored_reachable _ _ _ Hr2 r). unfold last_stored.
    rewrite foldl_app, (last_stored_none r tr1 zero Hnone). done. }
  destruct (configuration_steps _ _ _ _ _ _ Hs Hl) as (cache2 & Hl2 & _).
  rewrite Hl2 in Hlast2. simpl in Hlast2.
  split.
  - intros i pick' e s3 Hdo v' ->.
    apply do_Run_inv in Hdo as (p & e' & p' & st & g' & Hi & He & [= <-] & ->).
    exec_cases He. simplify_eq. done.
  - intros Hno.
    apply steps_cons in Hs as (tra & sa & trb & Ha & Hb & ->).
    apply Forall_app in Hno as [Hnoa Hnob].
    pose proof (registry_inv_do _ _ _ _ (registry_inv_reachable _ _ _ Hr) Ha)
      as Hreg.
    assert (New_phase t r v err zero sa) as Hph.
    { apply do_Run_inv in Ha as (p & e & p' & st & g' & Hi & He & -> & ->).
      unfold New_phase. simpl. rewrite (lookup_this_thread _ _ _ _ _ Hi).
      rewrite Ht in Hi. injection Hi as <-.
      erewrite exec_Update_63 in He by eauto. simplify_eq/=.
      destruct err; simpl; rewrite Hl; simpl; done. }
    pose proof (New_phase_steps _ _ _ _ _ _ _ _ _ Hreg Hph Hb Hnob) as Hph2.
    unfold New_phase in Hph2. rewrite Ht2 in Hph2. destruct Hph2 as [_ Hv].
    split; [|done]. rewrite Hl2 in Hv. simpl in Hv. congruence.
Qed.

End Machine.

(** ** The theorems at work on the concrete programs *)

Section Witnesses.

Import Examples.
Local Open Scope Z_scope.

Lemma Update_error_keeps_value_witness :
  heap (one_cache 3600 failing 2) !! 0%nat = Some (cache0 3600 failing 2)
  ∧ updateFunc (cache0 3600 failing 2) (world (one_cache 3600 failing 2))
    = (7, Some "update failed"%string, 2)
  ∧ ∃ g',
      call 0 (Update 0) (one_cache 3600 failing 2)
      = Some (RUnit, [EvInvoke 0 FromClient], [], g')
      ∧ heap g' = heap (one_cache 3600 failing 2)
      ∧ value <$> heap g' !! 0%nat = Some 2.
Proof.
  split; [reflexivity|]. split; [reflexivity|].
  destruct (Update_error_keeps_value 0 (one_cache 3600 failing 2) 0
              (cache0 3600 failing 2) 7 "update failed"%string 2
              eq_refl eq_refl) as [_ (g' & H1 & H2 & H3 & _)].
  exists g'. auto.
Defined.

Lemma Update_stores_producer_result_witness :
  heap (one_cache 3600 counting 2) !! 0%nat = Some (cache0 3600 counting 2)
  ∧ mu (cache0 3600 counting 2) = unlocked
  ∧ updateFunc (cache0 3600 counting 2) (world (one_cache 3600 counting 2))
    = (3, None, 3)
  ∧ ∃ tr g',
      call 0 (Update 0) (one_cache 3600 counting 2) = Some (RUnit, tr, [], g')
      ∧ value <$> heap g' !! 0%nat = Some 3.
Proof.
  split; [reflexivity|]. split; [reflexivity|]. split; [reflexivity|].
  destruct (Update_stores_producer_result 0 (one_cache 3600 counting 2) 0
              (cache0 3600 counting 2) 3 None 3 eq_refl eq_refl eq_refl)
    as (tr & g' & H1 & _ & H3).
  exists tr, g'. auto.
Defined.

Lemma Get_after_New_returns_first_result_witness :
  reachable 0 1 (after New_at_producer).1 (after New_at_producer).2
  ∧ threads (after New_at_producer).2 !! 0%nat = Some (Update_63 0 (FromNew 0))
  ∧ heap (mem (after New_at_producer).2) !! 0%nat = Some (cache0 3600 counting 0)
  ∧ updateFunc (cache0 3600 counting 0) (world (mem (after New_at_producer).2))
    = (2, None, 2)
  ∧ Forall (λ e, stores 0 e = false) (after New_at_producer).1
  ∧ steps 0 (Run 0 true :: New_then_Get) (after New_at_producer).2
    = Some (Get_reading.1, Get_reading.2)
  ∧ threads Get_reading.2 !! 0%nat = Some (Returned (RCache 0))
  ∧ Forall (λ e, stores_other 0 e = false) Get_reading.1
  ∧ do 0 (Run 2 true) Get_reading.2
    = Some ([EvLoad 0 2], (next (Run 2 true) Get_reading).2)
  ∧ 2 = last_stored 0 0 Get_reading.1
  ∧ last_stored 0 0 Get_reading.1 = 2
  ∧ value <$> heap (mem Get_reading.2) !! 0%nat = Some 2.
Proof.
  assert (reachable 0 1 (after New_at_producer).1 (after New_at_producer).2) as Hr
    by (exists New_at_producer; vm_compute; reflexivity).
  assert (threads (after New_at_producer).2 !! 0%nat
          = Some (Update_63 0 (FromNew 0))) as Ht by (vm_compute; reflexivity).
  assert (heap (mem (after New_at_producer).2) !! 0%nat
          = Some (cache0 3600 counting 0)) as Hl by (vm_compute; reflexivity).
  assert (updateFunc (cache0 3600 counting 0)
            (world (mem (after New_at_producer).2)) = (2, None, 2)) as Hf
    by (vm_compute; reflexivity).
  assert (Forall (λ e, stores 0 e = false) (after New_at_producer).1) as Hnone
    by (vm_compute; repeat constructor).
  assert (steps 0 (Run 0 true :: New_then_Get) (after New_at_producer).2
          = Some (Get_reading.1, Get_reading.2)) as Hs
    by (vm_compute; reflexivity).
  assert (threads Get_reading.2 !! 0%nat = Some (Returned (RCache 0))) as Ht2
    by (vm_compute; reflexivity).
  assert (Forall (λ e, stores_other 0 e = false) Get_reading.1) as Hno
    by (vm_compute; repeat constructor).
  assert (do 0 (Run 2 true) Get_reading.2
          = Some ([EvLoad 0 2], (next (Run 2 true) Get_reading).2)) as Hdo
    by (vm_compute; reflexivity).
  destruct (Get_after_New_returns_first_result 0 1 _ _ 0%nat 0%nat 0%nat _
              2 None 2 Hr Ht Hl Hf Hnone true New_then_Get _ _ Hs Ht2)
    as [Hload Hfirst].
  destruct (Hfirst Hno) as [H1 H2].
  pose proof (Hload 2%nat true _ _ Hdo 2 eq_refl) as H3.
  split_and!; assumption.
Defined.

Lemma New_steps_in_order_witness :
  globalCachesMutex (mem start) = unlocked
  ∧ failing (world (mem start)) = (7, Some "update failed"%string, 1)
  ∧ call 0 (New 0 3600 failing) (mem start)
    = Some (RCache 0,
            [EvAlloc 0; EvInvoke 0 (FromNew 0); EvGoLoop 0 0; EvLock Registry;
             EvAppend 0; EvUnlock Registry],
            [updateLoop_46 0 0],
            {| heap := [cache0 3600 failing 0]; globalCachesMutex := unlocked;
               globalCaches := [0%nat]; waitGroups := []; world := 1; now := 0;
               cancelled := [] |}).
Proof.
  split; [reflexivity|]. split; [reflexivity|].
  exact (New_steps_in_order 0 (mem start) 0%nat 3600 failing 7
           (Some "update failed"%string) 1 eq_refl eq_refl).
Defined.

Lemma Get_returns_value_and_changes_nothing_witness :
  heap (one_cache 3600 counting 2) !! 0%nat = Some (cache0 3600 counting 2)
  ∧ writer (mu (cache0 3600 counting 2)) = false
  ∧ call 0 (Get 0) (one_cache 3600 counting 2)
    = Some (RVal 2, [EvRLock (Mu 0); EvLoad 0 2; EvRUnlock (Mu 0)], [],
            one_cache 3600 counting 2).
Proof.
  split; [reflexivity|]. split; [reflexivity|].
  exact (proj1 (Get_returns_value_and_changes_nothing 0
                  (one_cache 3600 counting 2) 0%nat (cache0 3600 counting 2)
                  eq_refl eq_refl)).
Defined.

Lemma Update_discards_value_of_failed_producer_witness :
  heap (one_cache 3600 failing 2) !! 0%nat = Some (cache0 3600 failing 2)
  ∧ updateFunc (cache0 3600 failing 2) (world (one_cache 3600 failing 2))
    = (7, Some "update failed"%string, 2)
  ∧ Update_64 (T:=Z) (World:=Z) 0 FromClient 7 (Some "update failed"%string)
    = Update_64 0 FromClient 0 (Some "another"%string)
  ∧ exec 0 true (Update_63 0 FromClient) (one_cache 3600 failing 2)
    = Some (EvInvoke 0 FromClient, Returned RUnit, [],
            one_cache 3600 failing 2).
Proof.
  split; [reflexivity|]. split; [reflexivity|].
  destruct (Update_discards_value_of_failed_producer (World:=Z) 0 0%nat
              FromClient 7 "update failed"%string) as (H1 & _ & H3).
  split; [apply H1|].
  exact (H3 true (one_cache 3600 failing 2) (cache0 3600 failing 2) 2
           eq_refl eq_refl).
Defined.

Lemma registry_only_grows_witness :
  steps 0 (boot 3600 counting) start
  = Some ((after (boot 3600 counting)).1, (after (boot 3600 counting)).2)
  ∧ globalCaches (mem (after (boot 3600 counting)).2)
    = globalCaches (mem start) ++ appended (after (boot 3600 counting)).1
  ∧ (length (globalCaches (mem start))
     ≤ length (globalCaches (mem (after (boot 3600 counting)).2)))%nat.
Proof.
  assert (steps 0 (boot 3600 counting) start
          = Some ((after (boot 3600 counting)).1, (after (boot 3600 counting)).2))
    as Hs by (vm_compute; reflexivity).
  split; [exact Hs|].
  destruct (registry_only_grows 0 _ _ _ _ Hs) as (H1 & _ & _ & H4).
  split; assumption.
Defined.

Lemma fanout_runs_under_read_lock_witness :
  reachable 0 1 (after fanout_started).1 (after fanout_started).2
  ∧ do 0 (Run 3 true) (after fanout_started).2
    = Some ([EvInvoke 0 (FromFanOut 0)], (next (Run 3 true) (after fanout_started)).2)
  ∧ (0 < readers (globalCachesMutex (mem (after fanout_started).2)))%nat.
Proof.
  assert (reachable 0 1 (after fanout_started).1 (after fanout_started).2) as Hr
    by (exists fanout_started; vm_compute; reflexivity).
  assert (do 0 (Run 3 true) (after fanout_started).2
          = Some ([EvInvoke 0 (FromFanOut 0)],
                  (next (Run 3 true) (after fanout_started)).2)) as Hdo
    by (vm_compute; reflexivity).
  split; [exact Hr|]. split; [exact Hdo|].
  exact (proj1 (fanout_runs_under_read_lock 0 1 _ _ 3%nat true _ _ Hr Hdo) eq_refl).
Defined.


Lemma loop_returns_on_cancellation_witness :
  reachable 0 1 (after loop_waiting).1 (after loop_waiting).2
  ∧ threads (after loop_waiting).2 !! 1%nat = Some (updateLoop_47 0 0 5)
  ∧ ∀ pick, ∃ s1,
      do 0 (Run 1 pick) (after loop_waiting).2 = Some ([EvCtxDone 0 0], s1).
Proof.
  assert (reachable 0 1 (after loop_waiting).1 (after loop_waiting).2) as Hr
    by (exists loop_waiting; vm_compute; reflexivity).
  assert (threads (after loop_waiting).2 !! 1%nat = Some (updateLoop_47 0 0 5))
    as Ht by (vm_compute; reflexivity).
  split; [exact Hr|]. split; [exact Ht|].
  destruct (loop_returns_on_cancellation 0 1 _ _ 1%nat 0%nat 0%nat 5 Hr Ht)
    as (_ & H2 & _).
  apply H2.
  - vm_compute. left.
  - vm_compute. reflexivity.
Defined.

(** C6, as the spec states it, fails: when the goroutine of the only entry
    calls the producer the read lock of the registry is held, and it is
    still held when [wg.Wait()] returns. *)
Lemma fanout_calls_producer_under_read_lock :
  steps 0 fanout_started start = Some (after fanout_started)
  ∧ readers (globalCachesMutex (mem (after fanout_started).2)) = 1%nat
  ∧ fst <$> do 0 (Run 3 true) (after fanout_started).2
    = Some [EvInvoke 0 (FromFanOut 0)]
  ∧ steps 0 fanout_waiting start = Some (after fanout_waiting)
  ∧ readers (globalCachesMutex (mem (after fanout_waiting).2)) = 1%nat
  ∧ fst <$> do 0 (Run 2 true) (after fanout_waiting).2 = Some [EvWait 0].
Proof. split_and!; vm_compute; reflexivity. Qed.

(** C7, as the spec states it, fails: the context is cancelled while the
    background loop is between the call of the producer and the store, and
    the loop then changes the stored value from 2 to 3. *)
Lemma loop_stores_after_cancellation :
  steps 0 refresh_in_flight start = Some (after refresh_in_flight)
  ∧ ctx_done 0 (mem (after refresh_in_flight).2) = true
  ∧ threads (after refresh_in_flight).2 !! 1%nat = Some (Update_69 0 3 (FromLoop 0))
  ∧ value <$> heap (mem (after refresh_in_flight).2) !! 0%nat = Some 2
  ∧ fst <$> do 0 (Run 1 true) (after refresh_in_flight).2
    = Some [EvStore 0 3 (FromLoop 0)]
  ∧ value <$> heap (mem (next (Run 1 true) (after refresh_in_flight)).2) !! 0%nat
    = Some 3.
Proof. split_and!; vm_compute; reflexivity. Qed.

(** C3, as the spec states it, fails: with a period of zero the loop
    started at line 35 calls the producer and stores its result before
    [New] goes on to line 38; the [Get] called after [New] has returned
    then returns 3, the result of the second call, where the first call
    returned [(2, nil)]; and when the first call fails it returns 3 where
    the zero value is 0. *)
Lemma Get_after_New_returns_later_result :
  counting (world (mem start)) = (2, None, 2)
  ∧ (fst <$> steps 0 early_refresh start)
    = Some [EvAlloc 0; EvInvoke 0 (FromNew 0); EvLock (Mu 0);
            EvStore 0 2 (FromNew 0); EvUnlock (Mu 0); EvGoLoop 0 0;
            EvTimer 0 0; EvTick 0; EvInvoke 0 (FromLoop 0); EvLock (Mu 0);
            EvStore 0 3 (FromLoop 0); EvUnlock (Mu 0);
            EvLock Registry; EvAppend 0; EvUnlock Registry;
            EvRLock (Mu 0); EvLoad 0 3; EvRUnlock (Mu 0)]
  ∧ threads (after early_refresh).2
    = [Returned (RCache 0); updateLoop_46 0 0; Returned (RVal 3)]
  ∧ failing_first (world (mem start)) = (0, Some "update failed"%string, 2)
  ∧ (fst <$> steps 0 early_refresh_after_failure start)
    = Some [EvAlloc 0; EvInvoke 0 (FromNew 0); EvGoLoop 0 0;
            EvTimer 0 0; EvTick 0; EvInvoke 0 (FromLoop 0); EvLock (Mu 0);
            EvStore 0 3 (FromLoop 0); EvUnlock (Mu 0);
            EvLock Registry; EvAppend 0; EvUnlock Registry;
            EvRLock (Mu 0); EvLoad 0 3; EvRUnlock (Mu 0)]
  ∧ threads (after early_refresh_after_failure).2
    = [Returned (RCache 0); updateLoop_46 0 0; Returned (RVal 3)].
Proof. split_and!; vm_compute; reflexivity. Qed.

Lemma value_is_accessed_under_lock_witness :
  reachable 0 1 (after reader_behind_writer).1 (after reader_behind_writer).2
  ∧ do 0 (Run 2 true) (after reader_behind_writer).2
    = Some ([EvLoad 0 2], (next (Run 2 true) (after reader_behind_writer)).2)
  ∧ write_locked (mu_of (mem (after reader_behind_writer).2) 0) = false
  ∧ (0 < readers (mu_of (mem (after reader_behind_writer).2) 0))%nat
  ∧ sum_list_with (writing 0) (threads (after reader_behind_writer).2) = 0%nat
  ∧ reachable 0 1 (after refresh_in_flight).1 (after refresh_in_flight).2
  ∧ do 0 (Run 1 true) (after refresh_in_flight).2
    = Some ([EvStore 0 3 (FromLoop 0)],
            (next (Run 1 true) (after refresh_in_flight)).2)
  ∧ writer (mu_of (mem (after refresh_in_flight).2) 0) = true
  ∧ readers (mu_of (mem (after refresh_in_flight).2) 0) = 0%nat
  ∧ sum_list_with (reading 0) (threads (after refresh_in_flight).2) = 0%nat.
Proof.
  assert (reachable 0 1 (after reader_behind_writer).1 (after reader_behind_writer).2)
    as Hr0 by (exists reader_behind_writer; vm_compute; reflexivity).
  assert (do 0 (Run 2 true) (after reader_behind_writer).2
          = Some ([EvLoad 0 2], (next (Run 2 true) (after reader_behind_writer)).2))
    as Hdo0 by (vm_compute; reflexivity).
  assert (reachable 0 1 (after refresh_in_flight).1 (after refresh_in_flight).2)
    as Hr by (exists refresh_in_flight; vm_compute; reflexivity).
  assert (do 0 (Run 1 true) (after refresh_in_flight).2
          = Some ([EvStore 0 3 (FromLoop 0)],
                  (next (Run 1 true) (after refresh_in_flight)).2)) as Hdo
    by (vm_compute; reflexivity).
  destruct (proj2 (value_is_accessed_under_lock 0 1 _ _ 2%nat true _ _ Hr0 Hdo0)
              0%nat 2 eq_refl) as (_ & L2 & L3 & L4 & _).
  destruct (proj1 (value_is_accessed_under_lock 0 1 _ _ 1%nat true _ _ Hr Hdo)
              0%nat 3 (FromLoop 0) eq_refl) as (_ & H2 & H3 & _ & H5).
  split_and!; assumption.
Defined.

Lemma releases_never_fail_witness :
  reachable 0 1 (after store_done).1 (after store_done).2
  ∧ threads (after store_done).2 !! 1%nat = Some (Update_70 0 (FromLoop 0))
  ∧ releasing (Update_70 (T:=Z) (World:=Z) 0 (FromLoop 0)) = true
  ∧ is_Some (exec 0 true (Update_70 0 (FromLoop 0)) (mem (after store_done).2)).
Proof.
  assert (reachable 0 1 (after store_done).1 (after store_done).2)
    as Hr by (exists store_done; vm_compute; reflexivity).
  assert (threads (after store_done).2 !! 1%nat = Some (Update_70 0 (FromLoop 0)))
    as Ht by (vm_compute; reflexivity).
  split; [exact Hr|]. split; [exact Ht|]. split; [reflexivity|].
  exact (releases_never_fail 0 1 _ _ 1%nat _ true Hr Ht eq_refl).
Defined.

Lemma registry_is_well_formed_witness :
  reachable 0 1 (after New_during_fanout).1 (after New_during_fanout).2
  ∧ NoDup (globalCaches (mem (after New_during_fanout).2))
  ∧ (sum_list_with (registering 1) (threads (after New_during_fanout).2) = 1)%nat.
Proof.
  assert (reachable 0 1 (after New_during_fanout).1 (after New_during_fanout).2)
    as Hr by (exists New_during_fanout; vm_compute; reflexivity).
  split; [exact Hr|].
  destruct (registry_is_well_formed 0 1 _ _ Hr) as (H1 & _).
  split; [exact H1|]. vm_compute. reflexivity.
Defined.

Lemma one_loop_per_cache_witness :
  reachable 0 1 (after loop_returned).1 (after loop_returned).2
  ∧ is_Some (heap (mem (after loop_returned).2) !! 0%nat)
  ∧ ((sum_list_with (looper 0) (threads (after loop_returned).2) = 1%nat
      ∧ sum_list_with (loop_exit 0) (after loop_returned).1 = 0%nat)
     ∨ (sum_list_with (looper 0) (threads (after loop_returned).2) = 0%nat
        ∧ sum_list_with (loop_exit 0) (after loop_returned).1 = 1%nat)).
Proof.
  assert (reachable 0 1 (after loop_returned).1 (after loop_returned).2)
    as Hr by (exists loop_returned; vm_compute; reflexivity).
  assert (is_Some (heap (mem (after loop_returned).2) !! 0%nat)) as Hl
    by (vm_compute; eauto).
  split; [exact Hr|]. split; [exact Hl|].
  exact (one_loop_per_cache 0 1 _ _ 0%nat Hr Hl).
Defined.

Lemma period_and_producer_never_change_witness :
  steps 0 (Run 2 true :: fanout_run) (after fanout_called).2
  = Some (fanout_done.1, fanout_done.2)
  ∧ heap (mem (after fanout_called).2) !! 0%nat = Some (cache0 3600 counting 2)
  ∧ ∃ cache', heap (mem fanout_done.2) !! 0%nat = Some cache'
      ∧ period cache' = 3600
      ∧ updateFunc cache' = counting.
Proof.
  assert (steps 0 (Run 2 true :: fanout_run) (after fanout_called).2
          = Some (fanout_done.1, fanout_done.2)) as Hs
    by (vm_compute; reflexivity).
  assert (heap (mem (after fanout_called).2) !! 0%nat
          = Some (cache0 3600 counting 2)) as Hl by (vm_compute; reflexivity).
  split; [exact Hs|]. split; [exact Hl|].
  exact (period_and_producer_never_change 0 _ _ _ _ 0%nat _ Hs Hl).
Defined.

Lemma registry_lock_waits_witness :
  reachable 0 1 (after writer_waiting).1 (after writer_waiting).2
  ∧ threads (after writer_waiting).2 !! 3%nat = Some (New_38_wait 1)
  ∧ threads (after writer_waiting).2 !! 5%nat = Some GlobalCacheUpdate_75
  ∧ sum_list_with in_Lock_38 (threads (after writer_waiting).2) = 1%nat
  ∧ sum_list_with in_fanout (threads (after writer_waiting).2) = 1%nat
  ∧ (is_Some (do 0 (Run 3 true) (after writer_waiting).2)
     ↔ sum_list_with in_fanout (threads (after writer_waiting).2) = 0%nat)
  ∧ (is_Some (do 0 (Run 5 true) (after writer_waiting).2)
     ↔ sum_list_with in_Lock_38 (threads (after writer_waiting).2) = 0%nat
       ∧ sum_list_with in_append (threads (after writer_waiting).2) = 0%nat).
Proof.
  assert (reachable 0 1 (after writer_waiting).1 (after writer_waiting).2)
    as Hr by (exists writer_waiting; vm_compute; reflexivity).
  assert (threads (after writer_waiting).2 !! 3%nat = Some (New_38_wait 1)) as Ht
    by (vm_compute; reflexivity).
  assert (threads (after writer_waiting).2 !! 5%nat = Some GlobalCacheUpdate_75)
    as Ht' by (vm_compute; reflexivity).
  split; [exact Hr|]. split; [exact Ht|]. split; [exact Ht'|].
  split; [vm_compute; reflexivity|]. split; [vm_compute; reflexivity|].
  split.
  - exact (proj1 (proj2 (registry_lock_waits 0 1 _ _ 3%nat true Hr)) 1%nat Ht).
  - exact (proj2 (proj2 (registry_lock_waits 0 1 _ _ 5%nat true Hr)) Ht').
Defined.

Lemma cache_lock_waits_witness :
  reachable 0 1 (after reader_behind_writer).1 (after reader_behind_writer).2
  ∧ is_Some (heap (mem (after reader_behind_writer).2) !! 0%nat)
  ∧ threads (after reader_behind_writer).2 !! 3%nat
    = Some (Update_68_wait 0 3 FromClient)
  ∧ threads (after reader_behind_writer).2 !! 4%nat = Some (Get_57 0)
  ∧ sum_list_with (in_Lock_68 0) (threads (after reader_behind_writer).2) = 1%nat
  ∧ sum_list_with (reading 0) (threads (after reader_behind_writer).2) = 1%nat
  ∧ (is_Some (do 0 (Run 3 true) (after reader_behind_writer).2)
     ↔ sum_list_with (reading 0) (threads (after reader_behind_writer).2) = 0%nat)
  ∧ (is_Some (do 0 (Run 4 true) (after reader_behind_writer).2)
     ↔ sum_list_with (in_Lock_68 0) (threads (after reader_behind_writer).2) = 0%nat
       ∧ sum_list_with (writing 0) (threads (after reader_behind_writer).2) = 0%nat).
Proof.
  assert (reachable 0 1 (after reader_behind_writer).1 (after reader_behind_writer).2)
    as Hr by (exists reader_behind_writer; vm_compute; reflexivity).
  assert (is_Some (heap (mem (after reader_behind_writer).2) !! 0%nat)) as Hl
    by (vm_compute; eauto).
  assert (threads (after reader_behind_writer).2 !! 3%nat
          = Some (Update_68_wait 0 3 FromClient)) as Ht
    by (vm_compute; reflexivity).
  assert (threads (after reader_behind_writer).2 !! 4%nat = Some (Get_57 0)) as Ht'
    by (vm_compute; reflexivity).
  split; [exact Hr|]. split; [exact Hl|]. split; [exact Ht|]. split; [exact Ht'|].
  split; [vm_compute; reflexivity|]. split; [vm_compute; reflexivity|].
  split.
  - exact (proj1 (proj2 (cache_lock_waits 0 1 _ _ 3%nat true 0%nat Hr Hl))
             3 FromClient Ht).
  - exact (proj1 (proj2 (proj2 (cache_lock_waits 0 1 _ _ 4%nat true 0%nat Hr Hl)))
             Ht').
Defined.

Lemma loop_refreshes_when_period_elapses_witness :
  threads (after (boot 5 counting)).2 !! 1%nat = Some (updateLoop_46 0 0)
  ∧ heap (mem (after (boot 5 counting)).2) !! 0%nat = Some (cache0 5 counting 2)
  ∧ mu (cache0 5 counting 2) = unlocked
  ∧ (0%nat ∉ cancelled (mem (after (boot 5 counting)).2))
  ∧ (∃ sched tr s',
       steps 0 (Run 1 true :: Advance (Z.max 0 (period (cache0 5 counting 2))) :: sched)
         (after (boot 5 counting)).2 = Some (tr, s')
       ∧ threads s' = threads (after (boot 5 counting)).2
       ∧ mem s' = set_now (now (mem (after (boot 5 counting)).2)
                           + Z.max 0 (period (cache0 5 counting 2)))
                    (refreshed 0 (mem (after (boot 5 counting)).2))
       ∧ sum_list_with (λ e, Nat.b2n (is_invoke e)) tr = 1%nat)
  ∧ steps 0 [Run 1 true; Advance 4; Run 1 true] (after (boot 5 counting)).2 = None.
Proof.
  assert (threads (after (boot 5 counting)).2 !! 1%nat = Some (updateLoop_46 0 0))
    as Ht by (vm_compute; reflexivity).
  assert (heap (mem (after (boot 5 counting)).2) !! 0%nat
          = Some (cache0 5 counting 2)) as Hl by (vm_compute; reflexivity).
  assert (0%nat ∉ cancelled (mem (after (boot 5 counting)).2)) as Hc
    by (vm_compute; apply not_elem_of_nil).
  split; [exact Ht|]. split; [exact Hl|]. split; [reflexivity|]. split; [exact Hc|].
  destruct (loop_refreshes_when_period_elapses 0 _ 1%nat 0%nat 0%nat _
              Ht Hl eq_refl Hc) as [H1 H2].
  split; [exact H1|]. apply H2. reflexivity.
Defined.

Lemma failing_producer_keeps_zero_value_witness :
  reachable 0 1 (after failing_cache).1 (after failing_cache).2
  ∧ heap (mem (after failing_cache).2) !! 0%nat = Some (cache0 3600 failing 0)
  ∧ always_fails failing
  ∧ value (cache0 3600 failing 0) = 0
  ∧ ∀ v k, EvStore 0 v k ∉ (after failing_cache).1.
Proof.
  assert (reachable 0 1 (after failing_cache).1 (after failing_cache).2)
    as Hr by (exists failing_cache; vm_compute; reflexivity).
  assert (heap (mem (after failing_cache).2) !! 0%nat
          = Some (cache0 3600 failing 0)) as Hl by (vm_compute; reflexivity).
  assert (always_fails failing) as Hf by (intros w; simpl; discriminate).
  split; [exact Hr|]. split; [exact Hl|]. split; [exact Hf|].
  destruct (failing_producer_keeps_zero_value 0 1 _ _ 0%nat _ Hr Hl Hf)
    as (H1 & H2 & _).
  split; assumption.
Defined.

Lemma cache_holds_last_stored_value_witness :
  reachable 0 1 (after store_done).1 (after store_done).2
  ∧ heap (mem (after store_done).2) !! 0%nat
    = Some {| mu := {| writer := true; readers := 0 |}; value := 3;
              period := 5; updateFunc := counting |}
  ∧ 3 = last_stored 0 0 (after store_done).1.
Proof.
  assert (reachable 0 1 (after store_done).1 (after store_done).2)
    as Hr by (exists store_done; vm_compute; reflexivity).
  assert (heap (mem (after store_done).2) !! 0%nat
          = Some {| mu := {| writer := true; readers := 0 |}; value := 3;
                    period := 5; updateFunc := counting |}) as Hl
    by (vm_compute; reflexivity).
  split; [exact Hr|]. split; [exact Hl|].
  exact (proj1 (cache_holds_last_stored_value 0 1 _ _ 0%nat _ Hr Hl)).
Defined.


Lemma Updates_then_Get_witness :
  idle (one_cache 3600 counting 2) 0
  ∧ Updates 0 3 0 (one_cache 3600 counting 2)
    = Some (Nat.iter 3 (refreshed 0) (one_cache 3600 counting 2))
  ∧ value <$> heap (Nat.iter 3 (refreshed 0) (one_cache 3600 counting 2)) !! 0%nat
    = Some 5.
Proof.
  assert (idle (one_cache 3600 counting 2) 0) as Hi
    by (exists (cache0 3600 counting 2); split; reflexivity).
  split; [exact Hi|].
  split; [exact (proj1 (Updates_then_Get 0 3 _ 0%nat Hi))|].
  vm_compute. reflexivity.
Defined.

Lemma fanout_in_registry_order_witness :
  threads (after fanout3_called).2 !! 6%nat = Some GlobalCacheUpdate_75
  ∧ quiet (mem (after fanout3_called).2)
  ∧ globalCaches (mem (after fanout3_called).2) = [0; 1; 2]%nat
  ∧ value <$> heap (refreshed_all [0; 1; 2]%nat (mem (after fanout3_called).2))
    = [5; 6; 7]
  ∧ world (refreshed_all [0; 1; 2]%nat (mem (after fanout3_called).2)) = 7
  ∧ ∃ sched tr,
      steps 0 sched (after fanout3_called).2
      = Some (tr,
              {| threads := <[6%nat := Returned RUnit]> (threads (after fanout3_called).2)
                            ++ ((λ _, Returned RUnit)
                                  <$> globalCaches (mem (after fanout3_called).2));
                 mem := set_waitGroups
                          (waitGroups (mem (after fanout3_called).2) ++ [0%nat])
                          (refreshed_all (globalCaches (mem (after fanout3_called).2))
                             (mem (after fanout3_called).2)) |})
      ∧ invoked (length (waitGroups (mem (after fanout3_called).2))) tr
        = globalCaches (mem (after fanout3_called).2).
Proof.
  assert (threads (after fanout3_called).2 !! 6%nat = Some GlobalCacheUpdate_75)
    as Ht by (vm_compute; reflexivity).
  assert (quiet (mem (after fanout3_called).2)) as Hq.
  { split; [vm_compute; reflexivity|]. vm_compute.
    repeat (constructor; [eexists; split; reflexivity|]). constructor. }
  split; [exact Ht|]. split; [exact Hq|].
  split; [vm_compute; reflexivity|]. split; [vm_compute; reflexivity|].
  split; [vm_compute; reflexivity|].
  exact (fanout_in_registry_order 0 _ 6%nat Ht Hq).
Defined.

End Witnesses.
